(** * short-uid: a shallow embedding of [src/short-uid.ts]

    The generator class [ShortUID] is embedded as functions over an explicit
    world: the JavaScript heap (arrays and [ShortUID] instances are reached
    by reference; the shared dictionary is one such array and [getDict]
    hands out a fresh copy), the console, and the sequence of values
    [Math.random()] returns.  Operations live in a small state-and-exception
    monad; the two loops of the source take fuel.

    The console is whatever the environment provides: the identifier
    [console] may have no binding, [console] or [console.log] may be
    undefined or null, [console.log] may hold a value that cannot be
    called, or it is the platform's function, which prints its arguments
    and returns.

    JavaScript numbers are binary64 values.  The length argument of
    [randomUUID] and the random draws are modelled as such ([number]: NaN,
    the infinities, and finite dyadic values [m * 2^e], with products
    rounded to nearest-even).  The counter and the loop index only ever hold
    integers; they are modelled in [Z], with the increment and the quotient
    rounded the way the binary64 operations round them.  Strings are
    unbounded: the limit an engine puts on the length of a string is not
    modelled. *)

From Stdlib Require Import ZArith Lia String Ascii DecimalString.
From stdpp Require Import base tactics option list gmap strings.

#[local] Open Scope Z_scope.

(** ** JavaScript numbers *)

Module JS.

Inductive number : Type :=
  | NaN
  | Infinity (negative : bool)
  | Dyadic (m e : Z).               (* the finite value m * 2^e *)

Definition of_int (z : Z) : number := Dyadic z 0.


Definition compare_dyadic (m1 e1 m2 e2 : Z) : comparison :=
  let e := Z.min e1 e2 in
  (m1 * 2 ^ (e1 - e)) ?= (m2 * 2 ^ (e2 - e)).

(** [x < y]; any comparison with NaN is false. *)
Definition lt (x y : number) : bool :=
  match x, y with
  | NaN, _ | _, NaN => false
  | Infinity n1, Infinity n2 => n1 && negb n2
  | Infinity n, Dyadic _ _ => n
  | Dyadic _ _, Infinity n => negb n
  | Dyadic m1 e1, Dyadic m2 e2 =>
      match compare_dyadic m1 e1 m2 e2 with Lt => true | _ => false end
  end.

(** [x === y] on numbers. *)
Definition eq (x y : number) : bool :=
  match x, y with
  | Infinity n1, Infinity n2 => Bool.eqb n1 n2
  | Dyadic m1 e1, Dyadic m2 e2 =>
      match compare_dyadic m1 e1 m2 e2 with Eq => true | _ => false end
  | _, _ => false
  end.

(** Round the non-negative value [m * 2^e] to 53 bits of mantissa (fewer
    below the smallest normal exponent), ties to even. *)
Definition round_nearest_even (m e : Z) : Z * Z :=
  let s := Z.max (Z.log2 m - 52) (-1074 - e) in
  if s <=? 0 then (m, e)
  else
    let q := Z.shiftr m s in
    let r := m - Z.shiftl q s in
    let half := Z.shiftl 1 (s - 1) in
    (if (half <? r) || ((half =? r) && Z.odd q) then q + 1 else q, e + s).

(** The binary64 nearest to [m * 2^e] (the sign of zero is not tracked). *)
Definition fl (m e : Z) : number :=
  let '(q, e') := round_nearest_even (Z.abs m) e in
  if q =? 0 then Dyadic 0 0
  else if 1024 <=? Z.log2 q + e' then Infinity (m <? 0)
  else Dyadic (Z.sgn m * q) e'.

(** [x * y] *)
Definition mul (x y : number) : number :=
  match x, y with
  | NaN, _ | _, NaN => NaN
  | Infinity n1, Infinity n2 => Infinity (xorb n1 n2)
  | Infinity n, Dyadic m _ | Dyadic m _, Infinity n =>
      if m =? 0 then NaN else Infinity (xorb n (m <? 0))
  | Dyadic m1 e1, Dyadic m2 e2 => fl (m1 * m2) (e1 + e2)
  end.

(** [Math.floor(x)] *)
Definition Math_floor (x : number) : number :=
  match x with
  | Dyadic m e => if 0 <=? e then Dyadic (m * 2 ^ e) 0 else Dyadic (Z.shiftr m (- e)) 0
  | _ => x
  end.

(** [x % y]: the remainder has the sign of the dividend and is exact. *)
Definition rem (x y : number) : number :=
  match x, y with
  | NaN, _ | _, NaN | Infinity _, _ => NaN
  | Dyadic _ _, Infinity _ => x
  | Dyadic m1 e1, Dyadic m2 e2 =>
      if m2 =? 0 then NaN
      else let e := Z.min e1 e2 in
           Dyadic (Z.rem (m1 * 2 ^ (e1 - e)) (m2 * 2 ^ (e2 - e))) e
  end.

(** The integer a number denotes, when it denotes one. *)
Definition integer_value (x : number) : option Z :=
  match x with
  | Dyadic m e =>
      if 0 <=? e then Some (m * 2 ^ e)
      else if Z.rem m (2 ^ (- e)) =? 0 then Some (Z.shiftr m (- e))
      else None
  | _ => None
  end.

(** [a[x]]: an element, or [undefined] when [x] is not an index of [a]. *)
Definition array_get (a : list string) (x : number) : option string :=
  match integer_value x with
  | Some i => if 0 <=? i then a !! Z.to_nat i else None
  | None => None
  end.

(** String conversion of an array element that may be [undefined]. *)
Definition to_string (v : option string) : string :=
  match v with
  | Some s => s
  | None => "undefined"
  end.

(** [a + b] on integer-valued numbers, as an integer (sums stay far below
    the overflow threshold [2^1024]). *)
Definition add_int (a b : Z) : Z :=
  let s := a + b in
  let '(q, e) := round_nearest_even (Z.abs s) 0 in
  Z.sgn s * q * 2 ^ e.

(** [v++] leaves [v + 1] in the variable. *)
Definition incr (v : Z) : Z := add_int v 1.

(** [a % b] on integer-valued numbers (exact; [b] is the dictionary
    length, never zero). *)
Definition rem_int (a b : Z) : Z := Z.rem a b.

(** The binary64 nearest to [a / b], for integers [a >= 0] and [b > 0], as
    mantissa and exponent: the quotient is taken with at least 55 bits,
    the remainder is kept as a sticky last bit, and the result is rounded
    to 53 bits. *)
Definition div_nearest (a b : Z) : Z * Z :=
  let k := Z.max 0 (55 + Z.log2 b - Z.log2 a) in
  let n := a * 2 ^ k in
  let sticky := if n mod b =? 0 then 0 else 1 in
  round_nearest_even (2 * (n / b) + sticky) (- k - 1).

(** [Math.floor(a / b)] on integer-valued numbers, [b > 0]: the quotient is
    rounded to a binary64 first and floored then. *)
Definition floor_div (a b : Z) : Z :=
  let '(m, e) := div_nearest (Z.abs a) b in
  if 0 <=? e then Z.sgn a * m * 2 ^ e else Z.shiftr (Z.sgn a * m) (- e).

(** [String.fromCharCode(c)] for a code below 256. *)
Definition fromCharCode (c : Z) : string :=
  String (ascii_of_N (Z.to_N c)) EmptyString.

(** Decimal rendering of an integer inside a template string. *)
Definition string_of_int (z : Z) : string := NilZero.string_of_int (Z.to_int z).

End JS.

Abbreviation number := JS.number.

(** ** The world the class runs in *)

Inductive Console : Type :=
  | ConsoleUnbound        (* the identifier [console] has no binding *)
  | NoConsole             (* [console] is undefined or null *)
  | ConsoleWithoutLog     (* [console.log] is undefined or null *)
  | ConsoleLogNotCallable (* [console.log] holds a value that is not a function *)
  | ConsoleLog.           (* [console.log] prints a line *)

Abbreviation ref := positive.

(** The fields of a [ShortUID] instance. *)
Record ShortUID : Type := mkShortUID {
  counter : Z;
  debug : bool
}.

Record World : Type := mkWorld {
  arrays : gmap positive (list string);  (* arrays, by reference *)
  instances : gmap positive ShortUID;    (* ShortUID objects, by reference *)
  dict : ref;                            (* static ShortUID.dict *)
  dictLength : Z;                        (* static ShortUID.dictLength *)
  console : Console;
  printed : list (list string);          (* lines console.log wrote, latest first *)
  random : nat -> number;                (* what Math.random() returns, call by call *)
  draws : nat                            (* calls of Math.random() so far *)
}.

Definition set_arrays (h : gmap positive (list string)) (w : World) : World :=
  mkWorld h (instances w) (dict w) (dictLength w) (console w) (printed w)
    (random w) (draws w).

Definition set_instances (h : gmap positive ShortUID) (w : World) : World :=
  mkWorld (arrays w) h (dict w) (dictLength w) (console w) (printed w)
    (random w) (draws w).

Definition set_console (c : Console) (w : World) : World :=
  mkWorld (arrays w) (instances w) (dict w) (dictLength w) c (printed w)
    (random w) (draws w).

Definition set_printed (p : list (list string)) (w : World) : World :=
  mkWorld (arrays w) (instances w) (dict w) (dictLength w) (console w) p
    (random w) (draws w).

Definition set_draws (n : nat) (w : World) : World :=
  mkWorld (arrays w) (instances w) (dict w) (dictLength w) (console w)
    (printed w) (random w) n.

Inductive JsError : Type :=
  | Error (message : string)
  | TypeError
  | ReferenceError.

Inductive outcome (A : Type) : Type :=
  | Returns (a : A) (w : World)
  | Throws (e : JsError) (w : World)
  | OutOfFuel.

Arguments Returns {A} a w.
Arguments Throws {A} e w.
Arguments OutOfFuel {A}.

Definition M (A : Type) : Type := World -> outcome A.

Definition ret {A} (a : A) : M A := fun w => Returns a w.

Definition bind {A B} (m : M A) (k : A -> M B) : M B :=
  fun w =>
    match m w with
    | Returns a w' => k a w'
    | Throws e w' => Throws e w'
    | OutOfFuel => OutOfFuel
    end.

Definition throw {A} (e : JsError) : M A := fun w => Throws e w.

Definition out_of_fuel {A} : M A := fun _ => OutOfFuel.

Notation "'let*' x ':=' c 'in' k" := (bind c (fun x => k))
  (at level 10, x pattern, c at level 100, k at level 200).

Notation "c ';;' k" := (bind c (fun _ => k))
  (at level 100, k at level 200, right associativity).

(** [Math.random()] *)
Definition Math_random : M number :=
  fun w => Returns (random w (draws w)) (set_draws (S (draws w)) w).

(** [console?.log?.(line)].  Evaluating the identifier [console] throws a
    [ReferenceError] when it has no binding; each [?.] skips the call when
    what stands before it is undefined or null; calling a value that is not
    a function throws a [TypeError]. *)
Definition console_log (line : list string) : M unit :=
  fun w =>
    match console w with
    | ConsoleUnbound => Throws ReferenceError w
    | NoConsole | ConsoleWithoutLog => Returns tt w
    | ConsoleLogNotCallable => Throws TypeError w
    | ConsoleLog => Returns tt (set_printed (line :: printed w) w)
    end.

(** Reading the array behind a reference. *)
Definition array_read (r : ref) : M (list string) :=
  fun w =>
    match arrays w !! r with
    | Some a => Returns a w
    | None => Throws TypeError w
    end.

(** A new array with the given elements. *)
Definition array_new (a : list string) : M ref :=
  fun w =>
    let r := fresh (dom (arrays w)) in
    Returns r (set_arrays (<[r := a]> (arrays w)) w).

(** Any in-place change a caller makes to an array it holds
    ([a[i] = c], [a.push(c)], [a.length = 0], [a.sort()], ...). *)
Definition array_mutate (r : ref) (f : list string -> list string) : M unit :=
  fun w => Returns tt (set_arrays (alter f r (arrays w)) w).

(** A new instance with its fields initialised. *)
Definition instance_new (o : ShortUID) : M ref :=
  fun w =>
    let r := fresh (dom (instances w)) in
    Returns r (set_instances (<[r := o]> (instances w)) w).

(** [this.f] *)
Definition get_field {A} (f : ShortUID -> A) (this : ref) : M A :=
  fun w =>
    match instances w !! this with
    | Some o => Returns (f o) w
    | None => Throws TypeError w
    end.

(** [this.counter = v] *)
Definition set_counter (this : ref) (v : Z) : M unit :=
  fun w =>
    match instances w !! this with
    | Some o =>
        Returns tt (set_instances (<[this := mkShortUID v (debug o)]> (instances w)) w)
    | None => Throws TypeError w
    end.

Definition static_dict : M ref := fun w => Returns (dict w) w.
Definition static_dictLength : M Z := fun w => Returns (dictLength w) w.

(** [ShortUID.dict[i]], converted to a string as [id += ...] does. *)
Definition dict_at (i : number) : M string :=
  let* r := static_dict in
  let* a := array_read r in
  ret (JS.to_string (JS.array_get a i)).

(** ** The class [ShortUID] *)

Record ShortUIDOptions : Type := { opt_debug : option bool }.

Definition DEFAULT_RANDOM_ID_LEN : Z := 6.

(** The ranges, in the order [for ... in] visits them. *)
Definition DICT_RANGES : list (string * (Z * Z)) :=
  [ ("digits", (48, 58)); ("lowerCase", (97, 123)); ("upperCase", (65, 91)) ].

(** The inner loop: push the characters [lowerBound .. upperBound - 1]. *)
Definition push_range (d : list string) (dictRange : Z * Z) : list string :=
  let '(lowerBound, upperBound) := dictRange in
  d ++ (JS.fromCharCode <$> seqZ lowerBound (upperBound - lowerBound)).

(** The dictionary as built, before the shuffle. *)
Definition unshuffled_dict : list string :=
  foldl (fun d rangeType => push_range d rangeType.2) [] DICT_RANGES.

(** Evaluation of the static fields.  [sort] stands for
    [Array.prototype.sort] under the comparator [() => Math.random() - 0.5]:
    the order it leaves is the engine's. *)
Definition static_init (sort : list string -> list string)
    (c : Console) (rnd : nat -> number) : World :=
  let d := sort unshuffled_dict in
  {| arrays := {[ 1%positive := d ]};
     instances := ∅;
     dict := 1%positive;
     dictLength := Z.of_nat (length d);
     console := c;
     printed := [];
     random := rnd;
     draws := 0 |}.

(** [this.log(message)] *)
Definition log (this : ref) (message : string) : M unit :=
  let prefixedMessage := "[frugal-id] " +:+ message in
  let* d := get_field debug this in
  if d then console_log [prefixedMessage] else ret tt.

(** [new ShortUID(options)]; an omitted [options] is [{}]. *)
Definition constructor (options : option ShortUIDOptions) : M ref :=
  let options := default {| opt_debug := None |} options in
  let* this :=
    instance_new {| counter := 0; debug := default false (opt_debug options) |} in
  let* n := static_dictLength in
  log this ("Generator created with Dictionary Size " +:+ JS.string_of_int n);;
  ret this.

(** [getDict()]: the spread [[...ShortUID.dict]] builds a new array. *)
Definition getDict (this : ref) : M ref :=
  let* r := static_dict in
  let* a := array_read r in
  array_new a.

(** The [while (true)] loop of [counterUUID]. *)
Fixpoint counterUUID_loop (fuel : nat) (id : string) (counterDiv : Z) : M string :=
  match fuel with
  | O => out_of_fuel
  | S fuel' =>
      let* n := static_dictLength in
      let counterRem := JS.rem_int counterDiv n in
      let counterDiv := JS.floor_div counterDiv n in
      let* c := dict_at (JS.of_int counterRem) in
      let id := id +:+ c in
      if counterDiv =? 0 then ret id
      else counterUUID_loop fuel' id counterDiv
  end.

(** [counterUUID()] *)
Definition counterUUID (fuel : nat) (this : ref) : M string :=
  let* counterDiv := get_field counter this in
  let* id := counterUUID_loop fuel "" counterDiv in
  let* v := get_field counter this in
  set_counter this (JS.incr v);;
  ret id.

(** What a caller can pass for [uuidLength]. *)
Inductive argument : Type :=
  | Omitted
  | Undefined
  | Null
  | Number (x : number).

(** A default parameter value replaces a missing or [undefined] argument. *)
Definition or_default (a : argument) (d : Z) : argument :=
  match a with
  | Omitted | Undefined => Number (JS.of_int d)
  | _ => a
  end.

(** [a == null] *)
Definition loosely_null (a : argument) : bool :=
  match a with
  | Number _ => false
  | _ => true
  end.

(** The number an argument converts to in a comparison. *)
Definition ToNumber (a : argument) : number :=
  match a with
  | Number x => x
  | Null => JS.of_int 0
  | Omitted | Undefined => JS.NaN
  end.

(** The [for] loop of [randomUUID]. *)
Fixpoint randomUUID_loop (fuel : nat) (uuidLength : number) (id : string)
    (idIndex : Z) : M string :=
  match fuel with
  | O => out_of_fuel
  | S fuel' =>
      if JS.lt (JS.of_int idIndex) uuidLength then
        let* r := Math_random in
        let* n := static_dictLength in
        let randomPartIdx :=
          JS.rem (JS.Math_floor (JS.mul r (JS.of_int n))) (JS.of_int n) in
        let* c := dict_at randomPartIdx in
        randomUUID_loop fuel' uuidLength (id +:+ c) (JS.incr idIndex)
      else ret id
  end.

(** [randomUUID(uuidLength)] *)
Definition randomUUID (fuel : nat) (this : ref) (uuidLength : argument) : M string :=
  let uuidLength := or_default uuidLength DEFAULT_RANDOM_ID_LEN in
  if loosely_null uuidLength || JS.lt (ToNumber uuidLength) (JS.of_int 1)
  then throw (Error "Invalid UUID Length Provided")
  else randomUUID_loop fuel (ToNumber uuidLength) "" 0.

(** [resetCounter()] *)
Definition resetCounter (this : ref) : M unit :=
  set_counter this 0;;
  log this "Counter reset to 0".

(** [getCounter()] *)
Definition getCounter (this : ref) : M Z := get_field counter this.

(** [getDictLength()] *)
Definition getDictLength (this : ref) : M Z := static_dictLength.

(** ** Callers *)

(** One use of the public interface. *)
Inductive call : Type :=
  | New (options : option ShortUIDOptions)
  | CounterUUID (this : ref)
  | RandomUUID (this : ref) (uuidLength : argument)
  | ResetCounter (this : ref)
  | GetCounter (this : ref)
  | GetDict (this : ref)
  | GetDictLength (this : ref).

(** What a call hands back; an array is seen through its elements. *)
Inductive value : Type :=
  | VUndefined
  | VString (s : string)
  | VInt (z : Z)
  | VObject (r : ref)
  | VArray (r : ref) (elements : list string).

Definition invoke (fuel : nat) (c : call) : M value :=
  match c with
  | New options => let* r := constructor options in ret (VObject r)
  | CounterUUID this => let* s := counterUUID fuel this in ret (VString s)
  | RandomUUID this a => let* s := randomUUID fuel this a in ret (VString s)
  | ResetCounter this => resetCounter this;; ret VUndefined
  | GetCounter this => let* z := getCounter this in ret (VInt z)
  | GetDict this =>
      let* r := getDict this in
      let* a := array_read r in
      ret (VArray r a)
  | GetDictLength this => let* z := getDictLength this in ret (VInt z)
  end.

(** What the caller sees of an outcome: the value or the exception. *)
Inductive result (A : Type) : Type :=
  | Value (a : A)
  | Exception (e : JsError)
  | NoResult.

Arguments Value {A} a.
Arguments Exception {A} e.
Arguments NoResult {A}.

Definition result_of {A} (o : outcome A) : result A :=
  match o with
  | Returns a _ => Value a
  | Throws e _ => Exception e
  | OutOfFuel => NoResult
  end.

Definition world_of {A} (o : outcome A) : option World :=
  match o with
  | Returns _ w | Throws _ w => Some w
  | OutOfFuel => None
  end.

(** A run of calls; an exception is caught by the caller, who goes on. *)
Fixpoint run (fuel : nat) (cs : list call) (w : World) : list (result value) :=
  match cs with
  | [] => []
  | c :: cs' =>
      let o := invoke fuel c w in
      result_of o :: match world_of o with
                     | Some w' => run fuel cs' w'
                     | None => []
                     end
  end.

(** [n] successive calls of [counterUUID()], collecting the ids. *)
Fixpoint counterUUIDs (fuel : nat) (n : nat) (this : ref) : M (list string) :=
  match n with
  | O => ret []
  | S n' =>
      let* id := counterUUID fuel this in
      let* ids := counterUUIDs fuel n' this in
      ret (id :: ids)
  end.

(** One thing that can happen to the world: a call of the interface, a
    caller changing an array it got from [getDict] (never the private
    [ShortUID.dict] itself), or the environment replacing the console. *)
Inductive step : World -> World -> Prop :=
  | step_call fuel c w w' :
      world_of (invoke fuel c w) = Some w' -> step w w'
  | step_mutate r f w :
      r <> dict w -> step w (set_arrays (alter f r (arrays w)) w)
  | step_console c w :
      step w (set_console c w).

(** The worlds a program can be in once the class is loaded. *)
Inductive reachable (sort : list string -> list string) : World -> Prop :=
  | reachable_init c rnd : reachable sort (static_init sort c rnd)
  | reachable_step w w' : reachable sort w -> step w w' -> reachable sort w'.

(** ** Specification-side notions *)

(** The least integer not below a finite number. *)
Definition ceiling (m e : Z) : Z :=
  if 0 <=? e then m * 2 ^ e else - ((- m) / 2 ^ (- e)).


(** [Math.random()] returns a finite value in [0, 1). *)
Definition in_unit_interval (x : number) : bool :=
  match x with
  | JS.Dyadic m e => (0 <=? m) && JS.lt x (JS.of_int 1)
  | _ => false
  end.

Definition random_ok (w : World) : Prop :=
  forall i : nat, in_unit_interval (random w i) = true.

(** The static fields hold what [static_init] put there: the dictionary is
    a rearrangement of the characters pushed, and its length is cached. *)
Definition initialised (w : World) : Prop :=
  exists d : list string,
    arrays w !! dict w = Some d /\
    d ≡ₚ unshuffled_dict /\
    dictLength w = Z.of_nat (length d).

(** The characters of a string, each as a one-character string. *)
Fixpoint characters (s : string) : list string :=
  match s with
  | EmptyString => []
  | String c s' => String c EmptyString :: characters s'
  end.

(** The [k]-digit positional notation of [v] in base [b] over the alphabet
    [d], least significant digit first: position [i] holds the character
    for the digit [(v / b^i) mod b]. *)
Definition positional (d : list string) (b v : Z) (k : nat) : string :=
  foldr String.append ""
    ((fun i : nat => JS.to_string (d !! Z.to_nat ((v / b ^ Z.of_nat i) mod b))) <$> seq 0 k).

(** [k] is the number of base-[b] digits of [v] (one digit for zero). *)
Definition digit_count (b v : Z) (k : nat) : Prop :=
  (1 <= k)%nat /\ v < b ^ Z.of_nat k /\ (k = 1%nat \/ b ^ (Z.of_nat k - 1) <= v).

Definition alphabet : list string :=
  [ "0"; "1"; "2"; "3"; "4"; "5"; "6"; "7"; "8"; "9";
    "a"; "b"; "c"; "d"; "e"; "f"; "g"; "h"; "i"; "j"; "k"; "l"; "m";
    "n"; "o"; "p"; "q"; "r"; "s"; "t"; "u"; "v"; "w"; "x"; "y"; "z";
    "A"; "B"; "C"; "D"; "E"; "F"; "G"; "H"; "I"; "J"; "K"; "L"; "M";
    "N"; "O"; "P"; "Q"; "R"; "S"; "T"; "U"; "V"; "W"; "X"; "Y"; "Z" ].

(** [id] is the base-62 notation of [v] over [d], least significant digit
    first, with exactly as many digits as [v] has. *)
Definition encodes (d : list string) (v : Z) (id : string) : Prop :=
  exists k : nat, digit_count 62 v k /\ id = positional d 62 v k.

(** What [counterUUID] leaves behind: the instance with a new counter. *)
Definition with_counter (this : ref) (o : ShortUID) (v : Z) (w : World) : World :=
  set_instances (<[this := mkShortUID v (debug o)]> (instances w)) w.

(** The static fields and the dictionary array are as before, and so is the
    random source. *)
Definition frame (w w' : World) : Prop :=
  dict w' = dict w /\
  dictLength w' = dictLength w /\
  random w' = random w /\
  (forall a, arrays w !! dict w = Some a -> arrays w' !! dict w' = Some a).

Definition keeps {A} (m : M A) : Prop :=
  forall w w', world_of (m w) = Some w' -> frame w w'.

(** What evaluating [console?.log?.(...)] throws under a console, if it
    throws. *)
Definition console_error (c : Console) : option JsError :=
  match c with
  | ConsoleUnbound => Some ReferenceError
  | ConsoleLogNotCallable => Some TypeError
  | NoConsole | ConsoleWithoutLog | ConsoleLog => None
  end.

(** In two worlds [log] ends the same way: it throws in neither, or the
    consoles are the same and so are the [debug] flags. *)
Definition logs_alike (w1 w2 : World) : Prop :=
  (console_error (console w1) = None /\ console_error (console w2) = None) \/
  (console w1 = console w2 /\
   forall r o1 o2,
     instances w1 !! r = Some o1 -> instances w2 !! r = Some o2 ->
     debug o1 = debug o2).

(** Two objects may stand for one another in two worlds: [log] throws in
    neither world, or their [debug] flags are equal. *)
Definition flags_alike (w1 w2 : World) (o1 o2 : ShortUID) : Prop :=
  (console_error (console w1) = None /\ console_error (console w2) = None) \/
  debug o1 = debug o2.

(** Two worlds are similar when they agree on everything the return values
    depend on: the static fields, the dictionary array, which references
    are taken, the random source, the counters, and how [log] ends.  They
    may differ in what was printed, in the contents of arrays other than
    the dictionary, and, where [log] throws in neither, in the console and
    in the [debug] flags. *)
Definition similar (w1 w2 : World) : Prop :=
  dict w1 = dict w2 /\
  dictLength w1 = dictLength w2 /\
  random w1 = random w2 /\
  draws w1 = draws w2 /\
  dom (arrays w1) = dom (arrays w2) /\
  arrays w1 !! dict w1 = arrays w2 !! dict w2 /\
  dom (instances w1) = dom (instances w2) /\
  (forall r o1 o2,
      instances w1 !! r = Some o1 -> instances w2 !! r = Some o2 ->
      counter o1 = counter o2) /\
  logs_alike w1 w2.

Definition agree {A} (o1 o2 : outcome A) : Prop :=
  match o1, o2 with
  | Returns a1 w1, Returns a2 w2 => a1 = a2 /\ similar w1 w2
  | Throws e1 w1, Throws e2 w2 => e1 = e2 /\ similar w1 w2
  | OutOfFuel, OutOfFuel => True
  | _, _ => False
  end.

Definition related {A} (m1 m2 : M A) : Prop :=
  forall w1 w2, similar w1 w2 -> agree (m1 w1) (m2 w2).

(** One way an engine may sort: by insertion, asking the comparator once per
    comparison.  [answers] are the successive signs of
    [Math.random() - 0.5] ([true] for negative: the first argument goes
    first). *)
Fixpoint insert_with (answers : list bool) (x : string) (sorted : list string)
    {struct sorted} : list string * list bool :=
  match sorted with
  | [] => ([x], answers)
  | y :: rest =>
      match answers with
      | false :: answers' =>
          let '(l, a) := insert_with answers' x rest in (y :: l, a)
      | true :: answers' => (x :: sorted, answers')
      | [] => (x :: sorted, [])
      end
  end.

Fixpoint sort_with (answers : list bool) (l : list string) : list string * list bool :=
  match l with
  | [] => ([], answers)
  | x :: l' => let '(sorted, a) := sort_with answers l' in insert_with a x sorted
  end.

Definition example_answers : list bool :=
  (fun i : nat =>
     ((Z.of_nat i + 7) * (Z.of_nat i + 3) * 2654435761 / 4096) mod 16 <? 5)
    <$> seq 0 2000.

Definition example_sort (l : list string) : list string :=
  (sort_with example_answers l).1.

(** What [Math.random()] returns: these values (53-bit mantissas over
    [2^53]), then one half for ever. *)
Definition example_draws : list number :=
  (fun m => JS.Dyadic m (-53))
    <$> [ 6938893903907228; 1125899906842624; 8106479329266893; 40503;
          4503599627370496; 9007199254740991; 0; 2814749767106560;
          7036874417766400; 562949953421312; 3377699720527872; 8444249301319680 ].

Definition example_random (i : nat) : number :=
  nth i example_draws (JS.Dyadic 1 (-1)).

(** The class loaded under that engine, and then one generator created. *)
Definition example_world : World :=
  static_init example_sort ConsoleLog example_random.

Definition example_started : World :=
  default example_world (world_of (constructor None example_world)).

(** The example generator with its counter at the largest value it takes. *)
Definition limit_world : World :=
  with_counter 1%positive (mkShortUID 0 false) (2 ^ 53) example_started.

(** The one error the interface raises. *)
Definition InvalidLength : JsError := Error "Invalid UUID Length Provided".

(** A call other than [randomUUID], made on a live generator. *)
Definition on_live_instance (w : World) (c : call) : Prop :=
  match c with
  | RandomUUID _ _ => False
  | New _ | GetDict _ | GetDictLength _ => True
  | CounterUUID this | ResetCounter this | GetCounter this =>
      exists o, instances w !! this = Some o /\ 0 <= counter o <= 2 ^ 53
  end.

(** "The returned string has exactly the length asked for", at one numeric
    argument: the call returns, and the length of the string equals the
    argument as numbers. *)
Definition returns_that_many (w : World) (this : ref) (x : number) : Prop :=
  exists (fuel : nat) (s : string) (w' : World),
    randomUUID fuel this (Number x) w = Returns s w' /\
    JS.eq (JS.of_int (Z.of_nat (String.length s))) x = true.

(** A length [randomUUID] accepts and can count up to. *)
Definition usable_length (a : argument) : Prop :=
  a = Omitted \/ a = Undefined \/
  exists m e, a = Number (JS.Dyadic m e) /\
              JS.lt (JS.Dyadic m e) (JS.of_int 1) = false /\
              ceiling m e <= 2 ^ 53.

(** The character one draw selects: [dict[Math.floor(r * 62) % 62]] as a
    string. *)
Definition drawn_character (d : list string) (r : number) : string :=
  JS.to_string
    (JS.array_get d
       (JS.rem (JS.Math_floor (JS.mul r (JS.of_int 62))) (JS.of_int 62))).

(** The characters selected by the draws numbered [start], ..., [start + n - 1],
    in that order. *)
Definition random_string (d : list string) (rnd : nat -> number) (start n : nat)
    : string :=
  foldr String.append "" ((fun i : nat => drawn_character d (rnd i)) <$> seq start n).

(** Every generator's counter is an integer between 0 and [2^53]. *)
Definition counters_in_range (w : World) : Prop :=
  forall (r : ref) (o : ShortUID),
    instances w !! r = Some o -> 0 <= counter o <= 2 ^ 53.

(** The [debug] flag a constructor call asks for. *)
Definition requested_debug (options : option ShortUIDOptions) : bool :=
  default false (opt_debug (default {| opt_debug := None |} options)).

(** The error the [log] of a call throws, if it throws: only the
    constructor and [resetCounter] log, and only with [debug] on. *)
Definition log_error (w : World) (c : call) : option JsError :=
  match c with
  | New options =>
      if requested_debug options then console_error (console w) else None
  | ResetCounter this =>
      match instances w !! this with
      | Some o => if debug o then console_error (console w) else None
      | None => None
      end
  | _ => None
  end.

(** The class loaded where the identifier [console] has no binding. *)
Definition example_without_console : World :=
  static_init example_sort ConsoleUnbound example_random.

(** The example generator asked to log, after the environment lost its
    console. *)
Definition example_debugging : World :=
  set_console ConsoleUnbound
    (default example_world
       (world_of (constructor (Some {| opt_debug := Some true |}) example_world))).

(** The line a call writes to the console, if it writes one. *)
Definition line_of (w : World) (c : call) : option (list string) :=
  match console w with
  | ConsoleLog =>
      match c with
      | New options =>
          if requested_debug options
          then Some ["[frugal-id] Generator created with Dictionary Size 62"]
          else None
      | ResetCounter this =>
          match instances w !! this with
          | Some o => if debug o then Some ["[frugal-id] Counter reset to 0"] else None
          | None => None
          end
      | _ => None
      end
  | _ => None
  end.

(** ** Facts about numbers *)

Section NumberFacts.

Lemma log2_upper (m : Z) : 0 <= m -> m < 2 ^ (Z.log2 m + 1).
Proof.
intros Hm. destruct (Z.eq_dec m 0) as [-> | Hne]; [reflexivity |].
pose proof (Z.log2_spec m ltac:(lia)) as H. replace (Z.log2 m + 1) with (Z.succ (Z.log2 m)) by lia.
apply H.
Qed.

Lemma incr_exact (v : Z) : 0 <= v < 2 ^ 53 -> JS.incr v = v + 1.
Proof.
intros Hv. unfold JS.incr, JS.add_int.
destruct (Z.eq_dec (v + 1) (2 ^ 53)) as [E | NE].
- rewrite E. reflexivity.
- unfold JS.round_nearest_even.
  assert (Hlog : Z.log2 (Z.abs (v + 1)) < 53).
  { apply Z.log2_lt_pow2; lia. }
  destruct (Z.leb_spec (Z.max (Z.log2 (Z.abs (v + 1)) - 52) (-1074 - 0)) 0) as [_ | Hs]; [| lia].
  rewrite Z.sgn_pos by lia. rewrite Z.abs_eq by lia. lia.
Qed.

Lemma incr_stuck : JS.incr (2 ^ 53) = 2 ^ 53.
Proof. reflexivity. Qed.

(** On the values the counter takes, flooring the rounded quotient by 62
    gives the integer quotient: the quotient is at least 1/62 below the next
    integer, and rounding moves it by at most 1/64. *)
Lemma floor_div_exact (a : Z) : 0 <= a <= 2 ^ 53 -> JS.floor_div a 62 = a / 62.
Proof.
  intros Ha.
  destruct (Z.eq_dec a 0) as [-> | Hne0]; [reflexivity |].
  destruct (Z.eq_dec a (2 ^ 53)) as [-> | Hne53]; [vm_compute; reflexivity |].
  unfold JS.floor_div, JS.div_nearest.
  rewrite Z.abs_eq, Z.sgn_pos by lia. change (Z.log2 62) with 5.
  pose proof (Z.log2_spec a ltac:(lia)) as [HL1 HL2].
  pose proof (Z.log2_nonneg a) as HL0.
  assert (HL : Z.log2 a <= 52).
  { assert (Z.log2 a < 53); [| lia]. apply Z.log2_lt_pow2; lia. }
  rewrite Z.max_r by lia.
  replace (55 + 5 - Z.log2 a) with (60 - Z.log2 a) by lia.
  set (k := 60 - Z.log2 a) in *.
  assert (Hk : 8 <= k <= 60) by lia.
  assert (Hn60 : 2 ^ 60 <= a * 2 ^ k < 2 ^ 61).
  { replace 60 with (Z.log2 a + k) at 1 by lia.
    replace 61 with (Z.succ (Z.log2 a) + k) by lia.
    rewrite !Z.pow_add_r by lia.
    assert (0 < 2 ^ k) by (apply Z.pow_pos_nonneg; lia). nia. }
  set (n := a * 2 ^ k) in *.
  pose proof (Z.div_mod n 62 ltac:(lia)) as Hdm.
  pose proof (Z.mod_pos_bound n 62 ltac:(lia)) as Hmb.
  set (q := n / 62) in *.
  set (s := if n mod 62 =? 0 then 0 else 1).
  assert (Hs : 0 <= s <= 1) by (subst s; destruct (_ =? 0); lia).
  set (X := 2 * q + s).
  assert (HX : 2 ^ 55 <= X < 2 ^ 57) by (subst X; lia).
  assert (Hlog : Z.log2 X = 55 \/ Z.log2 X = 56).
  { assert (55 <= Z.log2 X) by (apply Z.log2_le_pow2; lia).
    assert (Z.log2 X < 57) by (apply Z.log2_lt_pow2; lia). lia. }
  pose proof (Z.div_mod a 62 ltac:(lia)) as Hda.
  pose proof (Z.mod_pos_bound a 62 ltac:(lia)) as Hma.
  set (A := a / 62) in *.
  assert (HA : 0 <= A) by (subst A; apply Z.div_pos; lia).
  unfold JS.round_nearest_even.
  assert (Hsh : exists sh P : Z,
             Z.log2 X - 52 = sh /\ (sh = 3 \/ sh = 4) /\
             32 <= P /\ 2 ^ k = 2 ^ (sh - 1) * P /\ P = 2 ^ (k + 1 - sh)).
  { destruct Hlog as [E | E]; rewrite E.
    - exists 3, (2 ^ (k - 2)). split; [reflexivity |]. split; [now left |].
      split; [| split].
      + change 32 with (2 ^ 5). apply Z.pow_le_mono_r; lia.
      + rewrite <- Z.pow_add_r by lia. f_equal. lia.
      + f_equal. lia.
    - exists 4, (2 ^ (k - 3)). split; [reflexivity |]. split; [now right |].
      split; [| split].
      + change 32 with (2 ^ 5). apply Z.pow_le_mono_r; lia.
      + rewrite <- Z.pow_add_r by lia. f_equal. lia.
      + f_equal. lia. }
  destruct Hsh as (sh & P & -> & Hsh & HP & HkP & HPdef).
  rewrite Z.max_l by lia.
  destruct (Z.leb_spec sh 0) as [Hbad | _]; [lia |].
  rewrite Z.shiftr_div_pow2, !Z.shiftl_mul_pow2 by lia. rewrite Z.mul_1_l.
  assert (HS : 0 < 2 ^ sh) by (apply Z.pow_pos_nonneg; lia).
  pose proof (Z.div_mod X (2 ^ sh) ltac:(lia)) as HdX.
  pose proof (Z.mod_pos_bound X (2 ^ sh) HS) as HmX.
  set (f := X / 2 ^ sh) in *.
  set (up := (2 ^ (sh - 1) <? X - f * 2 ^ sh)
             || (2 ^ (sh - 1) =? X - f * 2 ^ sh) && Z.odd f).
  assert (Hup : up = true -> 2 ^ (sh - 1) <= X - f * 2 ^ sh).
  { subst up. intros H. apply orb_prop in H as [H | H].
    - apply Z.ltb_lt in H. lia.
    - apply andb_prop in H as [H _]. apply Z.eqb_eq in H. lia. }
  assert (HnA : n = 62 * A * 2 ^ k + a mod 62 * 2 ^ k) by (subst n; nia).
  assert (Hrk : 0 <= a mod 62 * 2 ^ k <= 61 * 2 ^ k).
  { assert (0 < 2 ^ k) by (apply Z.pow_pos_nonneg; lia). nia. }
  set (AP := A * P) in *.
  assert (HAk : A * 2 ^ k = 2 ^ (sh - 1) * AP) by (subst AP; rewrite HkP; ring).
  assert (Hgoal : AP <= (if up then f + 1 else f) < AP + P).
  { destruct Hsh as [-> | ->].
    - change (2 ^ (3 - 1)) with 4 in *. change (2 ^ 3) with 8 in *.
      destruct up; [specialize (Hup eq_refl) |]; lia.
    - change (2 ^ (4 - 1)) with 8 in *. change (2 ^ 4) with 16 in *.
      destruct up; [specialize (Hup eq_refl) |]; lia. }
  cbn [fst snd].
  destruct (Z.leb_spec 0 (- k - 1 + sh)) as [Hbad | _]; [lia |].
  rewrite Z.mul_1_l. rewrite Z.shiftr_div_pow2 by lia.
  replace (- (- k - 1 + sh)) with (k + 1 - sh) by lia. rewrite <- HPdef.
  symmetry. apply Z.div_unique with ((if up then f + 1 else f) - A * P).
  - left. fold AP. lia.
  - fold up. ring.
Qed.

(** On the values the counter takes, [++] adds one until [2^53] and then
    leaves the value where it is. *)
Lemma incr_saturates (v : Z) : 0 <= v <= 2 ^ 53 -> JS.incr v = Z.min (v + 1) (2 ^ 53).
Proof.
  intros Hv. destruct (Z.eq_dec v (2 ^ 53)) as [-> | Hne].
  - reflexivity.
  - rewrite incr_exact by lia. lia.
Qed.

(** The loop test [idIndex < uuidLength] against a finite bound. *)
Lemma lt_int_dyadic (i m e : Z) :
JS.lt (JS.of_int i) (JS.Dyadic m e) = (i <? ceiling m e).
Proof.
unfold JS.lt, JS.of_int, JS.compare_dyadic, ceiling.
destruct (Z.leb_spec 0 e) as [He | He].
- rewrite Z.min_l by lia. rewrite !Z.sub_0_r. change (2 ^ 0) with 1. rewrite Z.mul_1_r.
  destruct (Z.compare_spec i (m * 2 ^ e)), (Z.ltb_spec i (m * 2 ^ e)); try reflexivity; lia.
- rewrite Z.min_r by lia. rewrite Z.sub_diag. change (2 ^ 0) with 1. rewrite Z.mul_1_r.
  rewrite Z.sub_0_l.
  assert (HK : 0 < 2 ^ (- e)) by (apply Z.pow_pos_nonneg; lia).
  set (K := 2 ^ (- e)) in *.
  assert (Hiff : i * K < m <-> i < - ((- m) / K)).
  { split; intros H.
    - assert ((- m) / K < - i); [| lia].
      apply Z.div_lt_upper_bound; lia.
    - assert (Hd : (- m) / K < - i) by lia.
      pose proof (Z.mul_div_le (- m) K HK) as H1.
      pose proof (Z.mod_pos_bound (- m) K HK) as H2.
      pose proof (Z.div_mod (- m) K ltac:(lia)) as H3.
      nia. }
  destruct (Z.compare_spec (i * K) m), (Z.ltb_spec i (- (- m / K))); try reflexivity; lia.
Qed.

(** Rounding keeps the sign and does not raise the magnitude past the next
  power of two. *)
Lemma round_nearest_even_bound (m e : Z) :
0 <= m ->
0 <= (JS.round_nearest_even m e).1 /\
Z.log2 (JS.round_nearest_even m e).1 + (JS.round_nearest_even m e).2
  <= Z.max (Z.log2 m + e + 1) (-1074).
Proof.
intros Hm. unfold JS.round_nearest_even.
pose proof (Z.log2_nonneg m) as HL.
set (s := Z.max (Z.log2 m - 52) (-1074 - e)).
destruct (Z.leb_spec s 0) as [Hs | Hs]; simpl; [lia |].
rewrite Z.shiftr_div_pow2 by lia.
assert (H2s : 0 < 2 ^ s) by (apply Z.pow_pos_nonneg; lia).
assert (Hq0 : 0 <= m / 2 ^ s) by (apply Z.div_pos; lia).
set (q0 := m / 2 ^ s) in *.
match goal with
| |- context [if ?c then q0 + 1 else q0] => set (q := if c then q0 + 1 else q0)
end.
assert (Hq : q0 <= q <= q0 + 1).
{ subst q. match goal with |- context [if ?c then _ else _] => destruct c end; lia. }
split; [lia |].
pose proof (log2_upper m Hm) as Hup.
assert (Hlq : Z.log2 q <= Z.max 0 (Z.log2 m + 1 - s)).
{ destruct (Z.le_gt_cases s (Z.log2 m + 1)) as [Hle | Hgt].
  - assert (q0 < 2 ^ (Z.log2 m + 1 - s)).
    { subst q0. apply Z.div_lt_upper_bound; [lia |].
      rewrite <- Z.pow_add_r by lia. replace (s + (Z.log2 m + 1 - s)) with (Z.log2 m + 1) by lia.
      exact Hup. }
    assert (q <= 2 ^ (Z.log2 m + 1 - s)) by lia.
    rewrite Z.max_r by lia.
    transitivity (Z.log2 (2 ^ (Z.log2 m + 1 - s))).
    + apply Z.log2_le_mono; lia.
    + rewrite Z.log2_pow2; lia.
  - assert (q0 = 0).
    { subst q0. apply Z.div_small. split; [lia |].
      eapply Z.lt_le_trans; [exact Hup |]. apply Z.pow_le_mono_r; lia. }
    assert (q <= 1) by lia.
    transitivity (Z.log2 1); [apply Z.log2_le_mono; lia | simpl; lia]. }
subst s. lia.
Qed.

Lemma round_nearest_even_zero (e : Z) : (JS.round_nearest_even 0 e).1 = 0.
Proof.
unfold JS.round_nearest_even.
set (s := Z.max (Z.log2 0 - 52) (-1074 - e)).
destruct (s <=? 0); [reflexivity |].
rewrite Z.shiftr_0_l, Z.shiftl_0_l, Z.sub_diag.
change (Z.odd 0) with false. rewrite andb_false_r, orb_false_r.
assert (0 <= Z.shiftl 1 (s - 1)) by (apply Z.shiftl_nonneg; lia).
destruct (Z.ltb_spec (Z.shiftl 1 (s - 1)) 0); [lia | reflexivity].
Qed.

(** [Math.floor(Math.random() * n) % n] is an index below [n]. *)
Lemma random_index (r : number) (n : Z) :
in_unit_interval r = true -> 0 < n < 2 ^ 64 ->
exists k : Z,
  0 <= k < n /\
  JS.rem (JS.Math_floor (JS.mul r (JS.of_int n))) (JS.of_int n) = JS.Dyadic k 0.
Proof.
unfold in_unit_interval. destruct r as [| | m e]; try discriminate.
intros Hr Hn. apply andb_prop in Hr as [Hm Hlt]. apply Z.leb_le in Hm.
assert (Hval : m = 0 \/ (e < 0 /\ 0 < m < 2 ^ (- e))).
{ unfold JS.lt, JS.of_int, JS.compare_dyadic in Hlt.
  destruct (Z.le_gt_cases 0 e) as [He | He].
  - rewrite Z.min_r in Hlt by lia. rewrite Z.sub_diag, Z.sub_0_r in Hlt.
    change (2 ^ 0) with 1 in Hlt. rewrite Z.mul_1_l in Hlt.
    assert (0 < 2 ^ e) by (apply Z.pow_pos_nonneg; lia).
    destruct (Z.compare_spec (m * 2 ^ e) 1); try discriminate. left. nia.
  - rewrite Z.min_l in Hlt by lia. rewrite Z.sub_diag, Z.sub_0_l in Hlt.
    change (2 ^ 0) with 1 in Hlt. rewrite Z.mul_1_r, Z.mul_1_l in Hlt.
    destruct (Z.compare_spec m (2 ^ (- e))); try discriminate.
    destruct (Z.eq_dec m 0); [left; lia | right; lia]. }
unfold JS.mul, JS.of_int, JS.fl. rewrite Z.add_0_r.
assert (Hmn : 0 <= m * n) by nia.
rewrite (Z.abs_eq (m * n)) by lia.
pose proof (round_nearest_even_bound (m * n) e Hmn) as [Hq Hb].
destruct (JS.round_nearest_even (m * n) e) as [q e'] eqn:Hround. simpl in Hq, Hb.
assert (Hfloor : exists f, 0 <= f /\
   JS.Math_floor (if q =? 0 then JS.Dyadic 0 0
      else if 1024 <=? Z.log2 q + e' then JS.Infinity (m * n <? 0)
      else JS.Dyadic (Z.sgn (m * n) * q) e') = JS.Dyadic f 0).
{ destruct (Z.eqb_spec q 0) as [-> | Hq0].
  - exists 0. split; [lia | reflexivity].
  - assert (Hpos : 0 < m * n).
    { destruct (Z.eq_dec (m * n) 0) as [E0 | ]; [| lia].
      rewrite E0 in Hround. pose proof (round_nearest_even_zero e) as Hz.
      rewrite Hround in Hz. simpl in Hz. lia. }
    assert (Hbound : Z.log2 (m * n) + e + 1 < 1024).
    { destruct Hval as [-> | [He Hmr]]; [lia |].
      assert (Z.log2 (m * n) < - e + 64); [| lia].
      apply Z.log2_lt_pow2; [nia |].
      rewrite Z.pow_add_r by lia. nia. }
    destruct (Z.leb_spec 1024 (Z.log2 q + e')) as [Hov | _]; [lia |].
    rewrite Z.sgn_pos by lia. rewrite Z.mul_1_l. unfold JS.Math_floor.
    destruct (Z.leb_spec 0 e').
    + exists (q * 2 ^ e'). split; [| reflexivity].
      apply Z.mul_nonneg_nonneg; [lia |]. apply Z.pow_nonneg; lia.
    + exists (Z.shiftr q (- e')). split; [| reflexivity].
      apply Z.shiftr_nonneg; lia. }
destruct Hfloor as (f & Hf & ->).
unfold JS.rem. destruct (Z.eqb_spec n 0); [lia |].
rewrite Z.min_id, Z.sub_diag. change (2 ^ 0) with 1. rewrite !Z.mul_1_r.
exists (Z.rem f n). split; [| reflexivity].
apply Z.rem_bound_pos; lia.
Qed.

End NumberFacts.

(** ** Facts about strings *)

Lemma append_cons (c : ascii) (s t : string) : String c s +:+ t = String c (s +:+ t).
Proof. reflexivity. Qed.

Lemma append_nil_r (s : string) : s +:+ "" = s.
Proof.
  induction s as [| c s IH]; [reflexivity |]. now rewrite append_cons, IH.
Qed.

Lemma append_assoc (s t u : string) : (s +:+ t) +:+ u = s +:+ (t +:+ u).
Proof.
  induction s as [| c s IH]; [reflexivity |]. now rewrite !append_cons, IH.
Qed.

Lemma length_append (s t : string) :
  String.length (s +:+ t) = (String.length s + String.length t)%nat.
Proof.
  induction s as [| c s IH]; [reflexivity |]. rewrite append_cons. simpl. now rewrite IH.
Qed.

Lemma characters_append (s t : string) :
  characters (s +:+ t) = characters s ++ characters t.
Proof.
  induction s as [| c s IH]; [reflexivity |]. rewrite append_cons. simpl. now rewrite IH.
Qed.

Lemma characters_single (c : string) :
  String.length c = 1%nat -> characters c = [c].
Proof. destruct c as [| a [| b c]]; simpl; intros H; try discriminate; reflexivity. Qed.

(** ** Facts about the dictionary *)

Lemma unshuffled_dict_alphabet : unshuffled_dict = alphabet.
Proof. reflexivity. Qed.

Lemma alphabet_length : length alphabet = 62%nat.
Proof. reflexivity. Qed.

Lemma alphabet_NoDup : NoDup alphabet.
Proof. apply (bool_decide_unpack _). vm_compute. exact I. Qed.

Lemma alphabet_single : Forall (fun c => String.length c = 1%nat) alphabet.
Proof. apply (bool_decide_unpack _). vm_compute. exact I. Qed.

Section Dictionary.

Variable d : list string.
Hypothesis shuffled : d ≡ₚ unshuffled_dict.

Lemma dict_length : length d = 62%nat.
Proof. rewrite shuffled. reflexivity. Qed.

Lemma dict_NoDup : NoDup d.
Proof. rewrite shuffled. exact alphabet_NoDup. Qed.

Lemma dict_single : Forall (fun c => String.length c = 1%nat) d.
Proof. rewrite shuffled. exact alphabet_single. Qed.

(** Every index below 62 holds a character. *)
Lemma dict_lookup (i : Z) :
  0 <= i < 62 ->
  exists c, d !! Z.to_nat i = Some c /\ c ∈ d /\ String.length c = 1%nat.
Proof.
  intros Hi. destruct (lookup_lt_is_Some_2 d (Z.to_nat i)) as [c Hc].
  { rewrite dict_length. lia. }
  exists c. split; [exact Hc |].
  assert (Hin : c ∈ d) by (eapply list_elem_of_lookup_2; exact Hc).
  split; [exact Hin |].
  pose proof dict_single as Hs. rewrite Forall_forall in Hs. apply Hs, Hin.
Qed.

Lemma array_get_index (i : Z) :
  0 <= i -> JS.array_get d (JS.Dyadic i 0) = d !! Z.to_nat i.
Proof.
  intros Hi. unfold JS.array_get, JS.integer_value. simpl.
  rewrite Z.mul_1_r. destruct (Z.leb_spec 0 i); [reflexivity | lia].
Qed.

End Dictionary.

(** ** Facts about the operations *)

Section Operations.

Variable w : World.
Variable d : list string.
Hypothesis Hdict : arrays w !! dict w = Some d.

Lemma dict_at_returns (i : number) :
  dict_at i w = Returns (JS.to_string (JS.array_get d i)) w.
Proof. unfold dict_at, bind, static_dict, array_read, ret. now rewrite Hdict. Qed.

End Operations.

Lemma initialised_dictLength (w : World) : initialised w -> dictLength w = 62.
Proof.
  intros (d & _ & Hp & ->). now rewrite (dict_length d Hp).
Qed.

Lemma positional_succ (d : list string) (v : Z) (k : nat) :
  0 <= v ->
  positional d 62 v (S k) =
    JS.to_string (d !! Z.to_nat (v mod 62)) +:+ positional d 62 (v / 62) k.
Proof.
  intros Hv. unfold positional. rewrite <- cons_seq, fmap_cons. simpl foldr.
  change (62 ^ Z.of_nat 0) with 1. rewrite Z.div_1_r. f_equal.
  rewrite <- fmap_S_seq, <- list_fmap_compose. f_equal.
  apply list_fmap_ext. intros _ i _. simpl. f_equal. f_equal. f_equal. f_equal.
  rewrite Nat2Z.inj_succ, Z.pow_succ_r by lia.
  rewrite Z.div_div; [reflexivity | lia | apply Z.pow_pos_nonneg; lia].
Qed.

Lemma digit_count_succ (v : Z) (k : nat) :
  0 < v / 62 -> digit_count 62 (v / 62) k -> digit_count 62 v (S k).
Proof.
  intros Hq (Hk & Hlt & Hge). unfold digit_count.
  pose proof (Z.div_mod v 62 ltac:(lia)) as Hdm.
  pose proof (Z.mod_pos_bound v 62 ltac:(lia)) as Hmod.
  split; [lia |]. split.
  - rewrite Nat2Z.inj_succ, Z.pow_succ_r by lia. lia.
  - right. replace (Z.of_nat (S k) - 1) with (Z.succ (Z.of_nat k - 1)) by lia.
    rewrite Z.pow_succ_r by lia.
    destruct Hge as [-> | Hge]; [simpl; lia | lia].
Qed.

(** The [while] loop computes the positional notation, given fuel for every
    digit. *)
Lemma counterUUID_loop_spec (w : World) (d : list string) :
  arrays w !! dict w = Some d -> dictLength w = 62 ->
  forall (fuel : nat) (id : string) (v : Z),
    (1 <= fuel)%nat -> 0 <= v < 62 ^ Z.of_nat fuel -> v <= 2 ^ 53 ->
    exists k : nat,
      (k <= fuel)%nat /\ digit_count 62 v k /\
      counterUUID_loop fuel id v w = Returns (id +:+ positional d 62 v k) w.
Proof.
  intros Hd Hn. induction fuel as [| fuel IH]; intros id v Hfuel Hv Hlim.
  - lia.
  - cbn [counterUUID_loop]. unfold bind at 1. unfold static_dictLength at 1.
    rewrite Hn. unfold bind at 1. rewrite (dict_at_returns w d Hd).
    rewrite floor_div_exact by lia.
    unfold JS.rem_int, JS.of_int.
    rewrite Z.rem_mod_nonneg by lia.
    pose proof (Z.mod_pos_bound v 62 ltac:(lia)) as Hmod.
    rewrite (array_get_index d) by lia.
    pose proof (Z.div_mod v 62 ltac:(lia)) as Hdm.
    destruct (Z.eqb_spec (v / 62) 0) as [Hq | Hq].
    + exists 1%nat. split; [lia |]. split.
      * unfold digit_count. split; [lia |]. split; [| now left].
        change (62 ^ Z.of_nat 1) with 62. lia.
      * unfold ret. f_equal. f_equal.
        rewrite positional_succ by lia. unfold positional. simpl.
        now rewrite append_nil_r.
    + assert (Hqpos : 0 < v / 62) by (pose proof (Z.div_pos v 62); lia).
      destruct (IH (id +:+ JS.to_string (d !! Z.to_nat (v mod 62))) (v / 62))
        as (k & Hk & Hdc & Hres).
      { destruct fuel; [| lia]. change (62 ^ Z.of_nat 1) with 62 in Hv. lia. }
      { split; [lia |]. apply Z.div_lt_upper_bound; [lia |].
        rewrite Nat2Z.inj_succ, Z.pow_succ_r in Hv by lia. lia. }
      { lia. }
      exists (S k). split; [lia |]. split; [now apply digit_count_succ |].
      rewrite Hres. f_equal.
      rewrite positional_succ by lia. now rewrite append_assoc.
Qed.

Lemma digit_count_unique (v : Z) (k k' : nat) :
  digit_count 62 v k -> digit_count 62 v k' -> k = k'.
Proof.
  assert (Hhalf : forall a b : nat,
            digit_count 62 v a -> digit_count 62 v b -> (b <= a)%nat).
  { intros a b (Ha & Hlt & _) (Hb & _ & Hge).
    destruct Hge as [-> | Hge]; [lia |].
    assert (62 ^ (Z.of_nat b - 1) < 62 ^ Z.of_nat a) as Hpow by lia.
    apply Z.pow_lt_mono_r_iff in Hpow; lia. }
  intros H1 H2. pose proof (Hhalf _ _ H1 H2). pose proof (Hhalf _ _ H2 H1). lia.
Qed.

Lemma encodes_functional (d : list string) (v : Z) (s t : string) :
  encodes d v s -> encodes d v t -> s = t.
Proof.
  intros (k & Hk & ->) (k' & Hk' & ->).
  now rewrite (digit_count_unique v k k' Hk Hk').
Qed.

Section Injective.

Variable d : list string.
Hypothesis shuffled : d ≡ₚ unshuffled_dict.

Lemma digit_string (v : Z) :
  0 <= v ->
  exists a : ascii,
    d !! Z.to_nat (v mod 62) = Some (String a EmptyString).
Proof.
  intros Hv. pose proof (Z.mod_pos_bound v 62 ltac:(lia)) as Hmod.
  destruct (dict_lookup d shuffled (v mod 62) Hmod) as (c & Hc & _ & Hlen).
  destruct c as [| a [| b c]]; simpl in Hlen; try discriminate.
  now exists a.
Qed.

Lemma positional_length (k : nat) (v : Z) :
  0 <= v -> String.length (positional d 62 v k) = k.
Proof.
  revert v. induction k as [| k IH]; intros v Hv; [reflexivity |].
  rewrite positional_succ by lia.
  destruct (digit_string v Hv) as (a & ->). simpl JS.to_string.
  rewrite append_cons. simpl. f_equal. apply IH. apply Z.div_pos; lia.
Qed.

Lemma positional_characters (k : nat) (v : Z) :
  0 <= v -> Forall (fun c => c ∈ d) (characters (positional d 62 v k)).
Proof.
  revert v. induction k as [| k IH]; intros v Hv; [constructor |].
  rewrite positional_succ by lia.
  destruct (digit_string v Hv) as (a & Ha). rewrite Ha. simpl JS.to_string.
  rewrite append_cons. simpl. constructor.
  - eapply list_elem_of_lookup_2. exact Ha.
  - apply IH. apply Z.div_pos; lia.
Qed.

(** Equal digit strings of the same width denote the same number. *)
Lemma positional_inj (k : nat) (v v' : Z) :
  0 <= v < 62 ^ Z.of_nat k -> 0 <= v' < 62 ^ Z.of_nat k ->
  positional d 62 v k = positional d 62 v' k -> v = v'.
Proof.
  revert v v'. induction k as [| k IH]; intros v v' Hv Hv' Heq.
  - change (62 ^ Z.of_nat 0) with 1 in *. lia.
  - rewrite !positional_succ in Heq by lia.
    destruct (digit_string v ltac:(lia)) as (a & Ha).
    destruct (digit_string v' ltac:(lia)) as (a' & Ha').
    rewrite Ha, Ha' in Heq. simpl JS.to_string in Heq.
    rewrite !append_cons in Heq. simpl in Heq. injection Heq as Hhead Htail.
    subst a'.
    assert (Hmod : Z.to_nat (v mod 62) = Z.to_nat (v' mod 62)).
    { eapply NoDup_lookup; [exact (dict_NoDup d shuffled) | exact Ha | exact Ha']. }
    pose proof (Z.mod_pos_bound v 62 ltac:(lia)).
    pose proof (Z.mod_pos_bound v' 62 ltac:(lia)).
    rewrite Nat2Z.inj_succ, Z.pow_succ_r in Hv, Hv' by lia.
    assert (Hdiv : v / 62 = v' / 62).
    { apply IH; [| | exact Htail].
      - split; [apply Z.div_pos; lia | apply Z.div_lt_upper_bound; lia].
      - split; [apply Z.div_pos; lia | apply Z.div_lt_upper_bound; lia]. }
    pose proof (Z.div_mod v 62 ltac:(lia)). pose proof (Z.div_mod v' 62 ltac:(lia)).
    lia.
Qed.

(** The encoding is injective on the non-negative integers. *)
Lemma encodes_injective (v v' : Z) (id : string) :
  0 <= v -> 0 <= v' -> encodes d v id -> encodes d v' id -> v = v'.
Proof.
  intros Hv Hv' (k & Hk & Hid) (k' & Hk' & Hid').
  assert (k = k').
  { rewrite <- (positional_length k v Hv), <- (positional_length k' v' Hv').
    now rewrite <- Hid, <- Hid'. }
  subst k'. destruct Hk as (_ & Hlt & _), Hk' as (_ & Hlt' & _).
  apply (positional_inj k); [lia | lia | congruence].
Qed.

End Injective.

Lemma counterUUID_spec (w : World) (d : list string) (this : ref) (o : ShortUID)
    (fuel : nat) :
  arrays w !! dict w = Some d -> dictLength w = 62 ->
  instances w !! this = Some o ->
  (1 <= fuel)%nat -> 0 <= counter o < 62 ^ Z.of_nat fuel -> counter o <= 2 ^ 53 ->
  exists id : string,
    encodes d (counter o) id /\
    counterUUID fuel this w = Returns id (with_counter this o (JS.incr (counter o)) w).
Proof.
  intros Hd Hn Ho Hfuel Hv Hlim.
  destruct (counterUUID_loop_spec w d Hd Hn fuel "" (counter o) Hfuel Hv Hlim)
    as (k & _ & Hk & Hloop).
  exists (positional d 62 (counter o) k). split; [now exists k |].
  unfold counterUUID, bind, get_field, set_counter, ret.
  rewrite Ho, Hloop. rewrite !Ho. reflexivity.
Qed.

(** ** The loop of [randomUUID] *)

Lemma set_draws_add_0 (w : World) : set_draws (draws w + 0) w = w.
Proof. destruct w. unfold set_draws. simpl. f_equal. lia. Qed.

Lemma set_draws_step (w : World) (k : nat) :
  set_draws (draws (set_draws (S (draws w)) w) + k) (set_draws (S (draws w)) w)
  = set_draws (draws w + S k) w.
Proof. destruct w. unfold set_draws. simpl. f_equal. lia. Qed.

(** A length that passes the test [uuidLength < 1] is at least one. *)
Lemma not_lt_one_ceiling (m e : Z) :
  JS.lt (JS.Dyadic m e) (JS.of_int 1) = false -> 1 <= ceiling m e.
Proof.
  unfold JS.lt, JS.of_int, JS.compare_dyadic, ceiling. intros H.
  destruct (Z.leb_spec 0 e) as [He | He].
  - rewrite Z.min_r in H by lia. rewrite Z.sub_diag, Z.sub_0_r in H.
    change (2 ^ 0) with 1 in H. rewrite Z.mul_1_l in H.
    destruct (Z.compare_spec (m * 2 ^ e) 1); try discriminate; lia.
  - rewrite Z.min_l in H by lia. rewrite Z.sub_diag, Z.sub_0_l in H.
    change (2 ^ 0) with 1 in H. rewrite Z.mul_1_r, Z.mul_1_l in H.
    assert (HK : 0 < 2 ^ (- e)) by (apply Z.pow_pos_nonneg; lia).
    set (K := 2 ^ (- e)) in *.
    assert (Hm : K <= m) by (destruct (Z.compare_spec m K); try discriminate; lia).
    assert ((- m) / K <= -1); [| lia].
    assert ((- m) / K < 0); [| lia].
    apply Z.div_lt_upper_bound; lia.
Qed.

Lemma ceiling_integer (m e n : Z) :
  JS.integer_value (JS.Dyadic m e) = Some n -> ceiling m e = n.
Proof.
  unfold JS.integer_value, ceiling. destruct (Z.leb_spec 0 e) as [He | He].
  - congruence.
  - assert (HK : 0 < 2 ^ (- e)) by (apply Z.pow_pos_nonneg; lia).
    destruct (Z.eqb_spec (Z.rem m (2 ^ (- e))) 0) as [Hr | Hr]; [| discriminate].
    intros [= <-]. rewrite Z.shiftr_div_pow2 by lia.
    apply Z.rem_mod_eq_0 in Hr; [| lia].
    rewrite Z.div_opp_l_z by lia. lia.
Qed.

(** Comparing an integer-valued number with an integer. *)
Lemma lt_integer (m e n i : Z) :
  JS.integer_value (JS.Dyadic m e) = Some n ->
  JS.lt (JS.Dyadic m e) (JS.of_int i) = (n <? i).
Proof.
  unfold JS.integer_value, JS.lt, JS.of_int, JS.compare_dyadic.
  destruct (Z.leb_spec 0 e) as [He | He].
  - intros [= <-]. rewrite Z.min_r by lia. rewrite Z.sub_diag, Z.sub_0_r.
    change (2 ^ 0) with 1. rewrite Z.mul_1_r.
    destruct (Z.compare_spec (m * 2 ^ e) i), (Z.ltb_spec (m * 2 ^ e) i);
      try reflexivity; lia.
  - assert (HK : 0 < 2 ^ (- e)) by (apply Z.pow_pos_nonneg; lia).
    destruct (Z.eqb_spec (Z.rem m (2 ^ (- e))) 0) as [Hr | Hr]; [| discriminate].
    intros [= <-]. rewrite Z.shiftr_div_pow2 by lia.
    apply Z.rem_mod_eq_0 in Hr; [| lia].
    rewrite Z.min_l by lia. rewrite Z.sub_diag, Z.sub_0_l.
    change (2 ^ 0) with 1. rewrite Z.mul_1_r.
    pose proof (Z.div_mod m (2 ^ (- e)) ltac:(lia)) as Hdm.
    set (K := 2 ^ (- e)) in *.
    destruct (Z.compare_spec m (i * K)), (Z.ltb_spec (m / K) i); try reflexivity; nia.
Qed.


Section RandomLoop.

Variable d : list string.
Hypothesis shuffled : d ≡ₚ unshuffled_dict.
Variables m e : Z.
Hypothesis bounded : ceiling m e <= 2 ^ 53.

(** With [k] positions left and fuel for them, the loop draws [k] times,
    appends [k] dictionary characters and touches nothing else. *)
Lemma randomUUID_loop_spec (k : nat) :
  forall (fuel : nat) (id : string) (idIndex : Z) (w : World),
    arrays w !! dict w = Some d -> dictLength w = 62 -> random_ok w ->
    0 <= idIndex -> idIndex + Z.of_nat k = ceiling m e -> (k < fuel)%nat ->
    exists t : string,
      randomUUID_loop fuel (JS.Dyadic m e) id idIndex w
        = Returns (id +:+ t) (set_draws (draws w + k) w) /\
      String.length t = k /\
      Forall (fun c => c ∈ d) (characters t).
Proof.
  induction k as [| k IH]; intros fuel id idIndex w Hd Hn Hr Hi Hk Hfuel;
    (destruct fuel as [| fuel]; [lia |]); cbn [randomUUID_loop];
    rewrite lt_int_dyadic.
  - destruct (Z.ltb_spec idIndex (ceiling m e)); [lia |].
    exists "". rewrite append_nil_r, set_draws_add_0. repeat split. constructor.
  - destruct (Z.ltb_spec idIndex (ceiling m e)); [| lia].
    unfold bind at 1. unfold Math_random at 1.
    unfold bind at 1. unfold static_dictLength at 1.
    set (w1 := set_draws (S (draws w)) w).
    change (dictLength w1) with (dictLength w). rewrite Hn.
    destruct (random_index (random w (draws w)) 62 (Hr _) ltac:(lia))
      as (i & Hirange & ->).
    unfold bind at 1. rewrite (dict_at_returns w1 d Hd).
    rewrite (array_get_index d) by lia.
    destruct (dict_lookup d shuffled i Hirange) as (c & -> & Hin & Hlen).
    simpl JS.to_string. rewrite incr_exact by lia.
    destruct (IH fuel (id +:+ c) (idIndex + 1) w1 Hd Hn Hr ltac:(lia) ltac:(lia)
                ltac:(lia)) as (t & Hres & Ht & Hchars).
    exists (c +:+ t). rewrite Hres. subst w1. rewrite set_draws_step.
    rewrite append_assoc. split; [reflexivity |]. split.
    + rewrite length_append. lia.
    + rewrite characters_append, (characters_single c Hlen). now constructor.
Qed.

End RandomLoop.

(** A finite length that passes validation and is within the exact range of
    the loop index: the call returns [ceiling] many dictionary characters
    and only advances the random source. *)
Lemma randomUUID_spec (w : World) (d : list string) (this : ref) (m e : Z) (fuel : nat) :
  arrays w !! dict w = Some d -> d ≡ₚ unshuffled_dict -> dictLength w = 62 ->
  random_ok w ->
  JS.lt (JS.Dyadic m e) (JS.of_int 1) = false -> ceiling m e <= 2 ^ 53 ->
  (Z.to_nat (ceiling m e) < fuel)%nat ->
  exists s : string,
    randomUUID fuel this (Number (JS.Dyadic m e)) w
      = Returns s (set_draws (draws w + Z.to_nat (ceiling m e)) w) /\
    Z.of_nat (String.length s) = ceiling m e /\
    Forall (fun c => c ∈ d) (characters s).
Proof.
  intros Hd Hp Hn Hr Hvalid Hb Hfuel.
  pose proof (not_lt_one_ceiling m e Hvalid) as Hc.
  destruct (randomUUID_loop_spec d Hp m e Hb (Z.to_nat (ceiling m e)) fuel "" 0 w
              Hd Hn Hr ltac:(lia) ltac:(lia) Hfuel) as (t & Hres & Ht & Hchars).
  exists t. unfold randomUUID, or_default, loosely_null, ToNumber.
  rewrite Hvalid. change (false || false) with false. cbv iota.
  split; [exact Hres |]. split; [lia | exact Hchars].
Qed.

(** A bound the index never reaches: the index sticks at [2^53] and the
    loop goes on for ever. *)
Lemma randomUUID_loop_diverges (d : list string) (x : number) :
  (forall i, 0 <= i <= 2 ^ 53 -> JS.lt (JS.of_int i) x = true) ->
  forall (fuel : nat) (id : string) (idIndex : Z) (w : World),
    arrays w !! dict w = Some d -> 0 <= idIndex <= 2 ^ 53 ->
    randomUUID_loop fuel x id idIndex w = OutOfFuel.
Proof.
  intros Hx. induction fuel as [| fuel IH]; intros id i w Hd Hi;
    cbn [randomUUID_loop]; [reflexivity |].
  rewrite (Hx i Hi).
  unfold bind at 1. unfold Math_random at 1.
  unfold bind at 1. unfold static_dictLength at 1.
  unfold bind at 1. rewrite (dict_at_returns (set_draws (S (draws w)) w) d Hd).
  apply IH; [exact Hd |]. rewrite incr_saturates by lia. lia.
Qed.

(** [randomUUID(Infinity)] and [randomUUID(n)] for an integer [n] above
    [2^53] pass validation and never return. *)
Lemma randomUUID_diverges_past_2_53 (w : World) (this : ref) (n : Z) (fuel : nat) :
  initialised w -> 2 ^ 53 < n ->
  randomUUID fuel this (Number (JS.Infinity false)) w = OutOfFuel /\
  randomUUID fuel this (Number (JS.of_int n)) w = OutOfFuel.
Proof.
  intros (d & Hd & _) Hn. unfold randomUUID, or_default, loosely_null, ToNumber.
  split.
  - change (false || JS.lt (JS.Infinity false) (JS.of_int 1)) with false. cbv iota.
    apply (randomUUID_loop_diverges d); [reflexivity | exact Hd | lia].
  - assert (Hv : JS.lt (JS.of_int n) (JS.of_int 1) = false).
    { change (JS.of_int n) with (JS.Dyadic n 0). rewrite (lt_integer n 0 n 1).
      - apply Z.ltb_ge. lia.
      - unfold JS.integer_value. simpl. now rewrite Z.mul_1_r. }
    rewrite Hv. change (false || false) with false. cbv iota.
    apply (randomUUID_loop_diverges d); [| exact Hd | lia].
    intros i Hi. unfold JS.of_int at 2. rewrite lt_int_dyadic. unfold ceiling. simpl.
    rewrite Z.mul_1_r. apply Z.ltb_lt. lia.
Qed.

(** ** What no operation changes *)

Lemma frame_refl (w : World) : frame w w.
Proof. unfold frame. auto. Qed.

Lemma frame_trans (w1 w2 w3 : World) : frame w1 w2 -> frame w2 w3 -> frame w1 w3.
Proof.
  intros (Hd & Hn & Hr & Ha) (Hd' & Hn' & Hr' & Ha').
  unfold frame. repeat split; try congruence. auto.
Qed.

Lemma keeps_ret {A} (a : A) : keeps (ret a).
Proof. intros w w' [= <-]. apply frame_refl. Qed.

Lemma keeps_throw {A} (e : JsError) : keeps (@throw A e).
Proof. intros w w' [= <-]. apply frame_refl. Qed.

Lemma keeps_out_of_fuel {A} : keeps (@out_of_fuel A).
Proof. intros w w' H. discriminate. Qed.

Lemma keeps_bind {A B} (m : M A) (k : A -> M B) :
  keeps m -> (forall a, keeps (k a)) -> keeps (bind m k).
Proof.
  intros Hm Hk w w' H. unfold bind in H.
  destruct (m w) as [a w1 | e w1 |] eqn:E.
  - eapply frame_trans; [apply Hm; rewrite E; reflexivity | eapply Hk; exact H].
  - apply Hm. rewrite E. exact H.
  - discriminate.
Qed.

Lemma keeps_Math_random : keeps Math_random.
Proof. intros w w' [= <-]. unfold frame. simpl. auto. Qed.

Lemma keeps_console_log (line : list string) : keeps (console_log line).
Proof.
  intros w w' H. unfold console_log in H.
  destruct (console w); injection H as <-; unfold frame; simpl; auto.
Qed.

Lemma keeps_array_read (r : ref) : keeps (array_read r).
Proof.
  intros w w' H. unfold array_read in H.
  destruct (arrays w !! r); injection H as <-; apply frame_refl.
Qed.

Lemma keeps_array_new (a : list string) : keeps (array_new a).
Proof.
  intros w w' [= <-]. unfold frame. simpl. repeat split.
  intros a' Ha'. rewrite lookup_insert_ne; [exact Ha' |].
  intros Heq. pose proof (is_fresh (dom (arrays w))) as Hfresh.
  rewrite Heq in Hfresh. apply Hfresh, elem_of_dom. eauto.
Qed.

Lemma keeps_instance_new (o : ShortUID) : keeps (instance_new o).
Proof. intros w w' [= <-]. unfold frame. simpl. auto. Qed.

Lemma keeps_get_field {A} (f : ShortUID -> A) (this : ref) : keeps (get_field f this).
Proof.
  intros w w' H. unfold get_field in H.
  destruct (instances w !! this); injection H as <-; apply frame_refl.
Qed.

Lemma keeps_set_counter (this : ref) (v : Z) : keeps (set_counter this v).
Proof.
  intros w w' H. unfold set_counter in H.
  destruct (instances w !! this); injection H as <-; unfold frame; simpl; auto.
Qed.

Lemma keeps_static_dict : keeps static_dict.
Proof. intros w w' [= <-]. apply frame_refl. Qed.

Lemma keeps_static_dictLength : keeps static_dictLength.
Proof. intros w w' [= <-]. apply frame_refl. Qed.

Create HintDb keeps.

#[local] Hint Resolve keeps_ret keeps_throw keeps_out_of_fuel keeps_Math_random
  keeps_console_log keeps_array_read keeps_array_new keeps_instance_new
  keeps_get_field keeps_set_counter keeps_static_dict keeps_static_dictLength
  : keeps.

Ltac keeps_step :=
  repeat first
    [ solve [auto with keeps]
    | apply keeps_bind; [| intros ?]
    | match goal with |- keeps (if ?b then _ else _) => destruct b end ].

Lemma keeps_dict_at (i : number) : keeps (dict_at i).
Proof. unfold dict_at. keeps_step. Qed.

Lemma keeps_log (this : ref) (message : string) : keeps (log this message).
Proof. unfold log. keeps_step. Qed.

Lemma keeps_counterUUID_loop (fuel : nat) :
  forall id counterDiv, keeps (counterUUID_loop fuel id counterDiv).
Proof.
  induction fuel as [| fuel IH]; intros id v; cbn [counterUUID_loop].
  - auto with keeps.
  - apply keeps_bind; [auto with keeps | intros n].
    apply keeps_bind; [apply keeps_dict_at | intros c].
    destruct (_ =? 0); [auto with keeps | apply IH].
Qed.

Lemma keeps_randomUUID_loop (fuel : nat) :
  forall x id idIndex, keeps (randomUUID_loop fuel x id idIndex).
Proof.
  induction fuel as [| fuel IH]; intros x id i; cbn [randomUUID_loop].
  - auto with keeps.
  - destruct (JS.lt _ _); [| auto with keeps].
    apply keeps_bind; [auto with keeps | intros r].
    apply keeps_bind; [auto with keeps | intros n].
    apply keeps_bind; [apply keeps_dict_at | intros c]. apply IH.
Qed.

#[local] Hint Resolve keeps_dict_at keeps_log keeps_counterUUID_loop
  keeps_randomUUID_loop : keeps.

Lemma keeps_invoke (fuel : nat) (c : call) : keeps (invoke fuel c).
Proof.
  destruct c; cbn [invoke];
    unfold constructor, counterUUID, randomUUID, resetCounter, getCounter,
      getDict, getDictLength; keeps_step.
Qed.

Lemma step_frame (w w' : World) : step w w' -> frame w w'.
Proof.
  intros [fuel c w0 w0' H | r f w0 Hr | c w0].
  - eapply keeps_invoke. exact H.
  - unfold frame. simpl. repeat split. intros a Ha.
    rewrite lookup_alter_ne; [exact Ha | exact Hr].
  - unfold frame. simpl. auto.
Qed.

Lemma frame_initialised (w w' : World) : frame w w' -> initialised w -> initialised w'.
Proof.
  intros (Hd & Hn & _ & Ha) (d & Hlook & Hp & Hlen).
  exists d. repeat split; [apply Ha, Hlook | exact Hp | congruence].
Qed.

Lemma frame_random_ok (w w' : World) : frame w w' -> random_ok w -> random_ok w'.
Proof. intros (_ & _ & Hr & _) H i. rewrite Hr. apply H. Qed.

Section Reachable.

Variable sort : list string -> list string.
Hypothesis sort_permutes : forall l : list string, sort l ≡ₚ l.

Lemma static_init_initialised (c : Console) (rnd : nat -> number) :
  initialised (static_init sort c rnd).
Proof.
  exists (sort unshuffled_dict). simpl. split; [| split].
  - apply lookup_singleton_eq.
  - apply sort_permutes.
  - reflexivity.
Qed.

(** The dictionary invariant holds in every reachable world. *)
Lemma reachable_initialised (w : World) : reachable sort w -> initialised w.
Proof.
  induction 1 as [c rnd | w w' _ IH Hstep].
  - apply static_init_initialised.
  - eapply frame_initialised; [apply step_frame, Hstep | exact IH].
Qed.

End Reachable.

(** ** Worlds a caller cannot tell apart *)

Lemma similar_refl (w : World) : similar w w.
Proof.
  unfold similar. repeat split; [intros r o1 o2 H1 H2; congruence |].
  right. split; [reflexivity |]. intros r o1 o2 H1 H2. congruence.
Qed.

Lemma related_ret {A} (a : A) : related (ret a) (ret a).
Proof. intros w1 w2 H. simpl. auto. Qed.

Lemma related_throw {A} (e : JsError) : related (@throw A e) (@throw A e).
Proof. intros w1 w2 H. simpl. auto. Qed.

Lemma related_out_of_fuel {A} : related (@out_of_fuel A) (@out_of_fuel A).
Proof. intros w1 w2 H. exact I. Qed.

Lemma agree_bind {A B} (m1 m2 : M A) (k1 k2 : A -> M B) (w1 w2 : World) :
  agree (m1 w1) (m2 w2) -> (forall a, related (k1 a) (k2 a)) ->
  agree (bind m1 k1 w1) (bind m2 k2 w2).
Proof.
  intros Hm Hk. unfold bind.
  destruct (m1 w1) as [a1 w1' | e1 w1' |], (m2 w2) as [a2 w2' | e2 w2' |];
    simpl in Hm; try contradiction; try exact I.
  - destruct Hm as [-> Hs']. now apply Hk.
  - exact Hm.
Qed.

Lemma related_bind {A B} (m1 m2 : M A) (k1 k2 : A -> M B) :
  related m1 m2 -> (forall a, related (k1 a) (k2 a)) ->
  related (bind m1 k1) (bind m2 k2).
Proof.
  intros Hm Hk w1 w2 Hs. apply agree_bind; [exact (Hm w1 w2 Hs) | exact Hk].
Qed.

Lemma related_Math_random : related Math_random Math_random.
Proof.
  intros w1 w2 (Hd & Hn & Hr & Hdr & Hdom & Ha & Hi & Hc & Hl). simpl.
  split; [congruence |]. unfold similar. simpl. repeat split; auto.
Qed.

Lemma related_static_dictLength : related static_dictLength static_dictLength.
Proof. intros w1 w2 Hs. simpl. split; [apply Hs | exact Hs]. Qed.

Lemma related_dict_at (i : number) : related (dict_at i) (dict_at i).
Proof.
  intros w1 w2 Hs. pose proof Hs as (Hd & Hn & Hr & Hdr & Hdom & Ha & Hi & Hc & Hl).
  unfold dict_at, bind, static_dict, array_read, ret. rewrite Ha.
  destruct (arrays w2 !! dict w2); simpl; auto.
Qed.

Lemma similar_instances (w1 w2 : World) (this : ref) :
  similar w1 w2 ->
  match instances w1 !! this, instances w2 !! this with
  | Some o1, Some o2 => counter o1 = counter o2
  | None, None => True
  | _, _ => False
  end.
Proof.
  intros (_ & _ & _ & _ & _ & _ & Hi & Hc & _).
  destruct (instances w1 !! this) as [o1 |] eqn:E1,
           (instances w2 !! this) as [o2 |] eqn:E2; auto.
  - eapply Hc; eauto.
  - apply (not_elem_of_dom (instances w2)) in E2. rewrite <- Hi in E2.
    apply E2, elem_of_dom. eauto.
  - apply (not_elem_of_dom (instances w1)) in E1. rewrite Hi in E1.
    apply E1, elem_of_dom. eauto.
Qed.

Lemma related_get_counter (this : ref) :
  related (get_field counter this) (get_field counter this).
Proof.
  intros w1 w2 Hs. pose proof (similar_instances w1 w2 this Hs) as H.
  unfold get_field.
  destruct (instances w1 !! this), (instances w2 !! this); simpl; try contradiction; auto.
Qed.

Lemma similar_flags (w1 w2 : World) (r : ref) (o1 o2 : ShortUID) :
  similar w1 w2 -> instances w1 !! r = Some o1 -> instances w2 !! r = Some o2 ->
  flags_alike w1 w2 o1 o2.
Proof.
  intros (_ & _ & _ & _ & _ & _ & _ & _ & [Hq | [_ Hf]]) H1 H2.
  - now left.
  - right. exact (Hf r o1 o2 H1 H2).
Qed.

Lemma similar_set_instances (w1 w2 : World) (r : ref) (o1 o2 : ShortUID) :
  similar w1 w2 -> counter o1 = counter o2 -> flags_alike w1 w2 o1 o2 ->
  similar (set_instances (<[r := o1]> (instances w1)) w1)
          (set_instances (<[r := o2]> (instances w2)) w2).
Proof.
  intros (Hd & Hn & Hr & Hdr & Hdom & Ha & Hi & Hc & Hl) Ho Hf.
  unfold similar. simpl. repeat split; auto.
  - rewrite !dom_insert_L. congruence.
  - intros r' o1' o2'. destruct (decide (r = r')) as [<- | Hne].
    + rewrite !lookup_insert_eq. congruence.
    + rewrite !lookup_insert_ne by exact Hne. apply Hc.
  - destruct Hl as [Hq | [Hcon Hdbg]]; [now left |].
    destruct Hf as [Hq | Hf]; [now left |].
    right. split; [exact Hcon |]. simpl.
    intros r' o1' o2'. destruct (decide (r = r')) as [<- | Hne].
    + rewrite !lookup_insert_eq. congruence.
    + rewrite !lookup_insert_ne by exact Hne. apply Hdbg.
Qed.

Lemma related_set_counter (this : ref) (v : Z) :
  related (set_counter this v) (set_counter this v).
Proof.
  intros w1 w2 Hs. pose proof (similar_instances w1 w2 this Hs) as H.
  pose proof (similar_flags w1 w2 this) as Hf.
  unfold set_counter.
  destruct (instances w1 !! this) as [o1 |], (instances w2 !! this) as [o2 |];
    simpl; try contradiction; auto.
  split; [reflexivity |].
  apply similar_set_instances; [exact Hs | reflexivity | exact (Hf o1 o2 Hs eq_refl eq_refl)].
Qed.

(** A new instance in each world, under the same reference. *)
Lemma similar_instance_new (w1 w2 : World) (o1 o2 : ShortUID) :
  similar w1 w2 -> counter o1 = counter o2 -> flags_alike w1 w2 o1 o2 ->
  agree (instance_new o1 w1) (instance_new o2 w2).
Proof.
  intros Hs Ho Hf. unfold instance_new. simpl.
  assert (Hi : dom (instances w1) = dom (instances w2)) by apply Hs.
  rewrite Hi. split; [reflexivity |]. now apply similar_set_instances.
Qed.

Lemma related_instance_new (o : ShortUID) : related (instance_new o) (instance_new o).
Proof.
  intros w1 w2 Hs. apply similar_instance_new; [exact Hs | reflexivity | now right].
Qed.

Lemma similar_set_printed (w1 w2 : World) (p1 p2 : list (list string)) :
  similar w1 w2 -> similar (set_printed p1 w1) (set_printed p2 w2).
Proof. intros Hs. exact Hs. Qed.

(** Logging: whatever the messages, and where it throws in neither world,
    whatever the flags and the consoles. *)
Lemma related_log (this : ref) (m1 m2 : string) : related (log this m1) (log this m2).
Proof.
  intros w1 w2 Hs. pose proof (similar_instances w1 w2 this Hs) as H.
  pose proof (similar_flags w1 w2 this) as Hf.
  unfold log, bind, get_field, console_log, ret.
  destruct (instances w1 !! this) as [o1 |], (instances w2 !! this) as [o2 |];
    simpl; try contradiction; auto.
  specialize (Hf o1 o2 Hs eq_refl eq_refl).
  pose proof Hs as (_ & _ & _ & _ & _ & _ & _ & _ & Hl).
  destruct Hl as [[Hq1 Hq2] | [Hcon _]].
  - destruct (debug o1), (debug o2), (console w1), (console w2);
      simpl in *; try discriminate; auto.
  - destruct Hf as [[Hq1 Hq2] | Hdbg].
    + destruct (debug o1), (debug o2), (console w1), (console w2);
        simpl in *; try discriminate; auto.
    + rewrite <- Hdbg. destruct (debug o1); simpl; [| auto].
      rewrite <- Hcon. destruct (console w1); simpl; auto.
Qed.

Lemma related_counterUUID_loop (fuel : nat) :
  forall id v, related (counterUUID_loop fuel id v) (counterUUID_loop fuel id v).
Proof.
  induction fuel as [| fuel IH]; intros id v; cbn [counterUUID_loop].
  - apply related_out_of_fuel.
  - apply related_bind; [apply related_static_dictLength | intros n].
    apply related_bind; [apply related_dict_at | intros c].
    destruct (_ =? 0); [apply related_ret | apply IH].
Qed.

Lemma related_randomUUID_loop (fuel : nat) :
  forall x id i, related (randomUUID_loop fuel x id i) (randomUUID_loop fuel x id i).
Proof.
  induction fuel as [| fuel IH]; intros x id i; cbn [randomUUID_loop].
  - apply related_out_of_fuel.
  - destruct (JS.lt _ _); [| apply related_ret].
    apply related_bind; [apply related_Math_random | intros r].
    apply related_bind; [apply related_static_dictLength | intros n].
    apply related_bind; [apply related_dict_at | intros c]. apply IH.
Qed.

Lemma related_constructor (options : option ShortUIDOptions) :
  related (constructor options) (constructor options).
Proof.
  unfold constructor.
  apply related_bind; [apply related_instance_new | intros this].
  apply related_bind; [apply related_static_dictLength | intros n].
  apply related_bind; [apply related_log | intros _]. apply related_ret.
Qed.

(** Where [log] throws in neither world, constructors asked for different
    settings of [debug] end alike. *)
Lemma constructor_agree (o1 o2 : option ShortUIDOptions) (w1 w2 : World) :
  similar w1 w2 ->
  console_error (console w1) = None -> console_error (console w2) = None ->
  agree (constructor o1 w1) (constructor o2 w2).
Proof.
  intros Hs H1 H2. unfold constructor. cbv zeta. apply agree_bind.
  - apply similar_instance_new; [exact Hs | reflexivity | left; auto].
  - intros this. apply related_bind; [apply related_static_dictLength | intros n].
    apply related_bind; [apply related_log | intros _]. apply related_ret.
Qed.

(** [getDict()] followed by a look at the copy it returned. *)
Lemma related_getDict_read (this : ref) :
  related (let* r := getDict this in let* a := array_read r in ret (VArray r a))
          (let* r := getDict this in let* a := array_read r in ret (VArray r a)).
Proof.
  intros w1 w2 Hs. pose proof Hs as (Hd & Hn & Hr & Hdr & Hdom & Ha & Hi & Hc & Hl).
  unfold getDict, bind, static_dict, array_read, array_new, ret. rewrite Ha.
  destruct (arrays w2 !! dict w2) as [a |] eqn:E; simpl; [| auto].
  rewrite !lookup_insert_eq. simpl. rewrite Hdom. split; [reflexivity |].
  assert (Hne : fresh (dom (arrays w2)) <> dict w2).
  { intros Heq. pose proof (is_fresh (dom (arrays w2))) as Hf. rewrite Heq in Hf.
    apply Hf, elem_of_dom. eauto. }
  unfold similar. simpl. repeat split; auto.
  - rewrite !dom_insert_L. congruence.
  - rewrite Hd. rewrite !lookup_insert_ne by exact Hne. congruence.
Qed.

Lemma related_invoke (fuel : nat) (c : call) : related (invoke fuel c) (invoke fuel c).
Proof.
  destruct c; cbn [invoke].
  - apply related_bind; [apply related_constructor | intros r; apply related_ret].
  - apply related_bind; [| intros s; apply related_ret]. unfold counterUUID.
    apply related_bind; [apply related_get_counter | intros v].
    apply related_bind; [apply related_counterUUID_loop | intros id].
    apply related_bind; [apply related_get_counter | intros v'].
    apply related_bind; [apply related_set_counter | intros _]. apply related_ret.
  - apply related_bind; [| intros s; apply related_ret]. unfold randomUUID.
    destruct (_ || _); [apply related_throw | apply related_randomUUID_loop].
  - apply related_bind; [| intros _; apply related_ret]. unfold resetCounter.
    apply related_bind; [apply related_set_counter | intros _]. apply related_log.
  - apply related_bind; [apply related_get_counter | intros z; apply related_ret].
  - apply related_getDict_read.
  - apply related_bind; [apply related_static_dictLength | intros z; apply related_ret].
Qed.

(** Similar worlds answer every run of calls alike. *)
Lemma run_similar (fuel : nat) (cs : list call) :
  forall w1 w2, similar w1 w2 -> run fuel cs w1 = run fuel cs w2.
Proof.
  induction cs as [| c cs IH]; intros w1 w2 Hs; [reflexivity |].
  cbn [run]. pose proof (related_invoke fuel c w1 w2 Hs) as H.
  destruct (invoke fuel c w1) as [a1 w1' | e1 w1' |],
           (invoke fuel c w2) as [a2 w2' | e2 w2' |];
    simpl in H; try contradiction; simpl.
  - destruct H as [-> Hs']. f_equal. now apply IH.
  - destruct H as [-> Hs']. f_equal. now apply IH.
  - reflexivity.
Qed.

(** ** Successive calls of [counterUUID] *)

Lemma limit_below_fuel (fuel : nat) : (9 <= fuel)%nat -> 2 ^ 53 < 62 ^ Z.of_nat fuel.
Proof.
  intros H. apply Z.lt_le_trans with (62 ^ 9); [reflexivity |].
  apply Z.pow_le_mono_r; lia.
Qed.

Lemma set_instances_id (w : World) : set_instances (instances w) w = w.
Proof. now destruct w. Qed.

Lemma with_counter_id (w : World) (this : ref) (o : ShortUID) :
  instances w !! this = Some o -> with_counter this o (counter o) w = w.
Proof.
  intros Ho. unfold with_counter.
  replace (mkShortUID (counter o) (debug o)) with o by now destruct o.
  rewrite insert_id by exact Ho. apply set_instances_id.
Qed.

Lemma with_counter_twice (w : World) (this : ref) (o o' : ShortUID) (v v' : Z) :
  debug o' = debug o ->
  with_counter this o' v' (with_counter this o v w) = with_counter this o v' w.
Proof.
  intros Hd. unfold with_counter, set_instances. simpl.
  now rewrite insert_insert_eq, Hd.
Qed.

Lemma counterUUIDs_spec (d : list string) (this : ref) (fuel : nat) :
  (9 <= fuel)%nat ->
  forall (n : nat) (w : World) (o : ShortUID),
    arrays w !! dict w = Some d -> dictLength w = 62 ->
    instances w !! this = Some o -> 0 <= counter o <= 2 ^ 53 ->
    exists ids : list string,
      counterUUIDs fuel n this w
        = Returns ids (with_counter this o (Z.min (counter o + Z.of_nat n) (2 ^ 53)) w) /\
      Forall2 (encodes d)
        ((fun i : nat => Z.min (counter o + Z.of_nat i) (2 ^ 53)) <$> seq 0 n) ids.
Proof.
  intros Hfuel. pose proof (limit_below_fuel fuel Hfuel) as Hlim.
  induction n as [| n IH]; intros w o Hd Hn Ho Hc.
  - exists []. simpl. unfold ret. rewrite Z.add_0_r, Z.min_l by lia.
    rewrite with_counter_id by exact Ho. split; [reflexivity | constructor].
  - destruct (counterUUID_spec w d this o fuel Hd Hn Ho ltac:(lia) ltac:(lia)
                ltac:(lia)) as (id & Hid & Hcall).
    rewrite incr_saturates in Hcall by lia.
    set (c1 := Z.min (counter o + 1) (2 ^ 53)) in *.
    set (w1 := with_counter this o c1 w) in *.
    set (o1 := mkShortUID c1 (debug o)).
    assert (Ho1 : instances w1 !! this = Some o1) by apply lookup_insert_eq.
    destruct (IH w1 o1 Hd Hn Ho1 ltac:(simpl; lia)) as (ids & Hcalls & Hids).
    exists (id :: ids). split.
    + cbn [counterUUIDs]. unfold bind at 1. rewrite Hcall.
      unfold bind at 1. rewrite Hcalls. unfold ret. f_equal.
      subst w1. rewrite with_counter_twice by reflexivity. f_equal. simpl. lia.
    + rewrite <- cons_seq, fmap_cons. constructor.
      * rewrite Z.add_0_r, Z.min_l by lia. exact Hid.
      * rewrite <- fmap_S_seq, <- list_fmap_compose.
        erewrite list_fmap_ext; [exact Hids |].
        intros _ i _. simpl. lia.
Qed.

(** Distinct sources with an injective relation give distinct images. *)
Lemma Forall2_NoDup {A B} (R : A -> B -> Prop) (l : list A) (l' : list B) :
  Forall2 R l l' -> NoDup l ->
  (forall x y b, x ∈ l -> y ∈ l -> R x b -> R y b -> x = y) ->
  NoDup l'.
Proof.
  induction 1 as [| x b l l' Hxb Hrest IH]; intros Hnd Hinj; [constructor |].
  apply NoDup_cons in Hnd as [Hx Hnd]. constructor.
  - intros Hb. apply list_elem_of_lookup in Hb as [i Hi].
    destruct (Forall2_lookup_r _ _ _ _ _ Hrest Hi) as (y & Hy & Hyb).
    assert (x = y).
    { apply (Hinj x y b); [left | right; eapply list_elem_of_lookup_2; exact Hy | |]; assumption. }
    subst y. apply Hx. eapply list_elem_of_lookup_2. exact Hy.
  - apply IH; [exact Hnd |]. intros x' y' b' Hx' Hy'. apply Hinj; now right.
Qed.

(** Running calls keeps a world reachable. *)
Lemma counterUUIDs_reachable (sort : list string -> list string) (fuel : nat)
    (this : ref) (n : nat) :
  forall w ids w',
    reachable sort w -> counterUUIDs fuel n this w = Returns ids w' ->
    reachable sort w'.
Proof.
  induction n as [| n IH]; intros w ids w' Hw Hrun; cbn [counterUUIDs] in Hrun.
  - injection Hrun as _ <-. exact Hw.
  - unfold bind at 1 in Hrun.
    destruct (counterUUID fuel this w) as [id w1 | |] eqn:E1; try discriminate.
    unfold bind at 1 in Hrun.
    destruct (counterUUIDs fuel n this w1) as [ids1 w2 | |] eqn:E2; try discriminate.
    injection Hrun as _ <-. apply (IH w1 ids1 w2); [| exact E2].
    apply reachable_step with w; [exact Hw |].
    apply (step_call fuel (CounterUUID this)). cbn [invoke]. unfold bind.
    rewrite E1. reflexivity.
Qed.

(** ** A concrete engine *)

Lemma insert_with_permutes (sorted : list string) :
  forall answers x, (insert_with answers x sorted).1 ≡ₚ x :: sorted.
Proof.
  induction sorted as [| y rest IH]; intros answers x; [simpl; reflexivity |].
  simpl. destruct answers as [| [|] answers']; try (simpl; reflexivity).
  specialize (IH answers' x). destruct (insert_with answers' x rest) as [l a].
  simpl in *. rewrite IH. apply Permutation_swap.
Qed.

Lemma sort_with_permutes (l : list string) :
  forall answers, (sort_with answers l).1 ≡ₚ l.
Proof.
  induction l as [| x l IH]; intros answers; [simpl; reflexivity |].
  simpl. specialize (IH answers). destruct (sort_with answers l) as [sorted a].
  simpl in IH. rewrite insert_with_permutes. now rewrite IH.
Qed.

Lemma example_sort_permutes (l : list string) : example_sort l ≡ₚ l.
Proof. apply sort_with_permutes. Qed.

Lemma example_random_ok (w : World) : random w = example_random -> random_ok w.
Proof.
  intros Hr i. rewrite Hr. unfold example_random.
  destruct (nth_in_or_default i example_draws (JS.Dyadic 1 (-1))) as [Hin | ->];
    [| reflexivity].
  revert Hin. generalize (nth i example_draws (JS.Dyadic 1 (-1))). intros x Hin.
  assert (Hall : Forall (fun x => in_unit_interval x = true) example_draws).
  { apply (bool_decide_unpack _). vm_compute. exact I. }
  rewrite Forall_forall in Hall. apply Hall. now apply list_elem_of_In.
Qed.

Lemma example_world_reachable : reachable example_sort example_world.
Proof. apply reachable_init. Qed.

Lemma example_started_reachable : reachable example_sort example_started.
Proof.
  apply reachable_step with example_world; [apply example_world_reachable |].
  apply (step_call 0 (New None)). vm_compute. reflexivity.
Qed.

Lemma example_started_initialised : initialised example_started.
Proof.
  apply (reachable_initialised example_sort example_sort_permutes).
  apply example_started_reachable.
Qed.

Lemma example_started_random_ok : random_ok example_started.
Proof. apply example_random_ok. reflexivity. Qed.

Lemma example_started_instance :
  instances example_started !! 1%positive = Some (mkShortUID 0 false).
Proof. vm_compute. reflexivity. Qed.

(** The constructor creates the instance and then logs: it returns the new
    reference, or throws what [log] throws; the instance is in the heap
    either way. *)
Lemma constructor_outcome (options : option ShortUIDOptions) (w : World) :
  exists w' : World,
    constructor options w
      = match log_error w (New options) with
        | Some e => Throws e w'
        | None => Returns (fresh (dom (instances w))) w'
        end /\
    instances w' = <[fresh (dom (instances w)) :=
                       mkShortUID 0 (default false (opt_debug (default {| opt_debug := None |} options)))]>
                     (instances w) /\
    frame w w'.
Proof.
  unfold log_error, requested_debug, constructor, bind, instance_new,
    static_dictLength, log, bind, get_field, console_log, ret.
  simpl. rewrite lookup_insert_eq. simpl.
  destruct (default false _); simpl; [destruct (console w) |]; simpl;
    eexists; (split; [reflexivity |]); (split; [reflexivity |]);
    unfold frame; simpl; auto.
Qed.

Lemma constructor_spec (options : option ShortUIDOptions) (w : World) :
  log_error w (New options) = None ->
  exists w' : World,
    constructor options w = Returns (fresh (dom (instances w))) w' /\
    instances w' = <[fresh (dom (instances w)) :=
                       mkShortUID 0 (default false (opt_debug (default {| opt_debug := None |} options)))]>
                     (instances w) /\
    frame w w'.
Proof.
  intros Hlog. destruct (constructor_outcome options w) as (w' & Hnew & Hrest).
  rewrite Hlog in Hnew. eauto.
Qed.

(** What is known of a generator the constructor handed over. *)
Lemma constructor_inv (options : option ShortUIDOptions) (w : World)
    (new : ref) (wn : World) :
  constructor options w = Returns new wn ->
  new = fresh (dom (instances w)) /\
  instances wn = <[fresh (dom (instances w)) :=
                     mkShortUID 0 (default false (opt_debug (default {| opt_debug := None |} options)))]>
                   (instances w) /\
  frame w wn /\
  log_error w (New options) = None.
Proof.
  intros Hnew. destruct (constructor_outcome options w) as (w' & Hout & Hinst & Hframe).
  rewrite Hnew in Hout. destruct (log_error w (New options)); [discriminate Hout |].
  injection Hout as -> ->. auto.
Qed.

Lemma constructor_world (options : option ShortUIDOptions) (w : World) :
  exists w' : World,
    world_of (constructor options w) = Some w' /\
    instances w' = <[fresh (dom (instances w)) :=
                       mkShortUID 0 (default false (opt_debug (default {| opt_debug := None |} options)))]>
                     (instances w) /\
    frame w w'.
Proof.
  destruct (constructor_outcome options w) as (w' & Hout & Hrest).
  exists w'. rewrite Hout. now destruct (log_error w (New options)).
Qed.

(** The constructor returns where its [log] does not throw. *)
Lemma constructed (options : option ShortUIDOptions) (w : World) :
  log_error w (New options) = None ->
  constructor options w
    = Returns (fresh (dom (instances w)))
        (default w (world_of (constructor options w))).
Proof.
  intros Hlog. destruct (constructor_spec options w Hlog) as (w' & Hnew & _).
  rewrite Hnew. reflexivity.
Qed.

Lemma encodes_zero (d : list string) (id c : string) :
  encodes d 0 id -> d !! 0%nat = Some c -> id = c.
Proof.
  intros (k & (Hk & _ & Hge) & ->) Hc.
  assert (k = 1%nat) as ->.
  { destruct Hge as [-> | Hge]; [reflexivity |].
    assert (0 < 62 ^ (Z.of_nat k - 1)) by (apply Z.pow_pos_nonneg; lia). lia. }
  rewrite positional_succ by lia.
  change (Z.to_nat (0 mod 62)) with 0%nat. rewrite Hc.
  change (positional d 62 (0 / 62) 0) with "". apply append_nil_r.
Qed.

Lemma counterUUID_at_zero (w : World) (d : list string) (this : ref) (o : ShortUID)
    (c : string) (fuel : nat) :
  arrays w !! dict w = Some d -> dictLength w = 62 -> d !! 0%nat = Some c ->
  instances w !! this = Some o -> counter o = 0 -> (1 <= fuel)%nat ->
  exists w', counterUUID fuel this w = Returns c w'.
Proof.
  intros Hd Hn Hc Ho H0 Hfuel.
  destruct (counterUUID_spec w d this o fuel Hd Hn Ho Hfuel) as (id & Hid & Hcall).
  { rewrite H0. split; [lia |]. apply Z.pow_pos_nonneg; lia. }
  { rewrite H0. lia. }
  rewrite H0 in Hid. rewrite (encodes_zero d id c Hid Hc) in Hcall. eauto.
Qed.

Lemma example_started_constructed :
  constructor None example_world = Returns 1%positive example_started.
Proof.
  destruct (constructor_spec None example_world eq_refl) as (w' & Hnew & _).
  unfold example_started. rewrite Hnew. reflexivity.
Qed.

Lemma example_second_constructed :
  constructor (Some {| opt_debug := Some true |}) example_started
  = Returns 2%positive
      (default example_started
         (world_of (constructor (Some {| opt_debug := Some true |}) example_started))).
Proof.
  assert (Hlog : log_error example_started (New (Some {| opt_debug := Some true |}))
                 = None) by (vm_compute; reflexivity).
  assert (Hnew : fresh (dom (instances example_started)) = 2%positive)
    by (vm_compute; reflexivity).
  rewrite <- Hnew. apply constructed, Hlog.
Qed.

Lemma limit_world_reachable : reachable example_sort limit_world.
Proof.
  pose proof example_started_initialised as (d & Hd & Hp & Hlen).
  pose proof (initialised_dictLength _ example_started_initialised) as Hn.
  assert (HN : exists N : nat, Z.of_nat N = 2 ^ 53).
  { exists (Z.to_nat (2 ^ 53)). apply Z2Nat.id. lia. }
  destruct HN as (N & HN).
  destruct (counterUUIDs_spec d 1%positive 9 ltac:(lia) N
              example_started (mkShortUID 0 false) Hd Hn example_started_instance
              ltac:(simpl; lia)) as (ids & Hrun & _).
  cbn [counter] in Hrun. rewrite HN in Hrun.
  change (Z.min (0 + 2 ^ 53) (2 ^ 53)) with (2 ^ 53) in Hrun.
  exact (counterUUIDs_reachable example_sort 9 1%positive N example_started ids
           limit_world example_started_reachable Hrun).
Qed.

(** ** The claims *)

(** C1, as amended.  For a counter value [v] with [0 <= v < 2^53],
    [counterUUID()] returns the base-62 positional notation of [v] over the
    dictionary, least significant digit first and with exactly the digits of
    [v] (so the first character is [dict[v mod 62]], and [v = 0] gives the
    one character [dict[0]]), and leaves [v + 1] in the counter. *)
Theorem counterUUID_encodes_then_increments (w : World) (this : ref) (o : ShortUID)
    (fuel : nat) :
  initialised w -> instances w !! this = Some o ->
  0 <= counter o < 2 ^ 53 -> (9 <= fuel)%nat ->
  exists (d : list string) (k : nat) (id : string) (w' : World),
    arrays w !! dict w = Some d /\
    counterUUID fuel this w = Returns id w' /\
    digit_count 62 (counter o) k /\
    id = positional d 62 (counter o) k /\
    (exists c rest : string,
        d !! Z.to_nat (counter o mod 62) = Some c /\
        String.length c = 1%nat /\ id = c +:+ rest) /\
    (counter o = 0 -> d !! 0%nat = Some id) /\
    getCounter this w' = Returns (counter o + 1) w'.
Proof.
  intros Hinit Ho Hv Hfuel. pose proof (initialised_dictLength w Hinit) as Hn.
  destruct Hinit as (d & Hd & Hp & Hlen).
  pose proof (limit_below_fuel fuel Hfuel) as Hlim.
  destruct (counterUUID_loop_spec w d Hd Hn fuel "" (counter o) ltac:(lia) ltac:(lia)
              ltac:(lia)) as (k & _ & Hk & Hloop).
  exists d, k, (positional d 62 (counter o) k),
    (with_counter this o (counter o + 1) w).
  split; [exact Hd |]. split.
  { unfold counterUUID, bind, get_field, set_counter, ret.
    rewrite Ho, Hloop. rewrite !Ho. rewrite incr_exact by lia. reflexivity. }
  split; [exact Hk |]. split; [reflexivity |].
  pose proof (Z.mod_pos_bound (counter o) 62 ltac:(lia)) as Hmod.
  destruct (dict_lookup d Hp (counter o mod 62) Hmod) as (c & Hc & _ & Hclen).
  assert (Hpos : exists k', k = S k').
  { destruct Hk as (Hk1 & _). destruct k; [lia | eauto]. }
  destruct Hpos as (k' & ->). rewrite positional_succ by lia. rewrite Hc.
  simpl JS.to_string. split; [| split].
  - exists c, (positional d 62 (counter o / 62) k'). auto.
  - intros H0. rewrite H0 in *. destruct Hk as (_ & _ & [Hk1 | Hk1]).
    + injection Hk1 as ->. unfold positional. simpl. rewrite append_nil_r. exact Hc.
    + assert (0 < 62 ^ (Z.of_nat (S k') - 1)) by (apply Z.pow_pos_nonneg; lia). lia.
  - unfold getCounter, get_field, with_counter. simpl.
    rewrite lookup_insert_eq. reflexivity.
Qed.

Lemma counterUUID_encodes_then_increments_witness :
  exists (d : list string) (k : nat) (id : string) (w' : World),
    arrays example_started !! dict example_started = Some d /\
    counterUUID 9 1%positive example_started = Returns id w' /\
    digit_count 62 0 k /\
    id = positional d 62 0 k /\
    (exists c rest : string,
        d !! Z.to_nat (0 mod 62) = Some c /\
        String.length c = 1%nat /\ id = c +:+ rest) /\
    (0 = 0 -> d !! 0%nat = Some id) /\
    getCounter 1%positive w' = Returns (0 + 1) w'.
Proof.
  apply (counterUUID_encodes_then_increments example_started 1%positive
           (mkShortUID 0 false) 9).
  - exact example_started_initialised.
  - exact example_started_instance.
  - simpl. lia.
  - lia.
Defined.

(** C1, as stated, fails at the counter value [2^53], which the example
    generator reaches: the call returns an id, and the counter is [2^53]
    before and after, not [2^53 + 1]. *)
Lemma counterUUID_at_2_53_keeps_counter :
  reachable example_sort limit_world /\
  getCounter 1%positive limit_world = Returns (2 ^ 53) limit_world /\
  exists (id : string) (w' : World),
    counterUUID 9 1%positive limit_world = Returns id w' /\
    getCounter 1%positive w' = Returns (2 ^ 53) w' /\
    getCounter 1%positive w' <> Returns (2 ^ 53 + 1) w'.
Proof.
  split; [exact limit_world_reachable |].
  assert (Ho : instances limit_world !! 1%positive = Some (mkShortUID (2 ^ 53) false))
    by apply lookup_insert_eq.
  split; [unfold getCounter, get_field; now rewrite Ho |].
  pose proof example_started_initialised as (d & Hd & Hp & Hlen).
  pose proof (initialised_dictLength _ example_started_initialised) as Hn.
  destruct (counterUUID_spec limit_world d 1%positive _ 9 Hd Hn Ho ltac:(lia))
    as (id & _ & Hcall).
  { cbn [counter]. split; [lia | reflexivity]. }
  { cbn [counter]. lia. }
  exists id. eexists. split; [exact Hcall |].
  cbn [counter]. rewrite incr_stuck.
  unfold getCounter, get_field, with_counter. simpl. rewrite lookup_insert_eq.
  split; [reflexivity |]. intros [= H].
Qed.

Lemma counters_source_exact (N : nat) :
  Z.of_nat N <= 2 ^ 53 + 1 ->
  (fun i : nat => Z.min (0 + Z.of_nat i) (2 ^ 53)) <$> seq 0 N = Z.of_nat <$> seq 0 N.
Proof.
  intros HN. apply list_fmap_ext. intros i x Hx.
  apply lookup_seq in Hx as [-> Hi]. simpl. lia.
Qed.

(** C2, as amended.  A fresh instance (one the constructor has just
    returned, under a reference that was free) called [N] times, for any
    [N <= 2^53], hands out [N] pairwise distinct ids (the encoding is
    injective on the non-negative integers), and [getCounter()] is [N]
    afterwards. *)
Theorem counterUUID_ids_distinct (w : World) (options : option ShortUIDOptions)
    (this : ref) (w1 : World) (N fuel : nat) :
  initialised w -> constructor options w = Returns this w1 ->
  Z.of_nat N <= 2 ^ 53 -> (9 <= fuel)%nat ->
  exists (d : list string) (ids : list string) (w2 : World),
    arrays w !! dict w = Some d /\
    instances w !! this = None /\
    counterUUIDs fuel N this w1 = Returns ids w2 /\
    length ids = N /\
    NoDup ids /\
    getCounter this w2 = Returns (Z.of_nat N) w2 /\
    (forall v v' id, 0 <= v -> 0 <= v' ->
        encodes d v id -> encodes d v' id -> v = v').
Proof.
  intros Hinit Hnew HN Hfuel.
  destruct (constructor_inv options w this w1 Hnew) as (-> & Hinst & Hframe & _).
  pose proof (frame_initialised w w1 Hframe Hinit) as Hinit1.
  pose proof (initialised_dictLength w1 Hinit1) as Hn1.
  destruct Hinit as (d & Hd & Hp & Hlen).
  assert (Hd1 : arrays w1 !! dict w1 = Some d) by (apply Hframe, Hd).
  set (this := fresh (dom (instances w))) in *.
  set (o := mkShortUID 0 (default false (opt_debug (default {| opt_debug := None |} options)))) in *.
  assert (Ho : instances w1 !! this = Some o) by (rewrite Hinst; apply lookup_insert_eq).
  destruct (counterUUIDs_spec d this fuel Hfuel N w1 o Hd1 Hn1 Ho ltac:(simpl; lia))
    as (ids & Hrun & Hids).
  cbn [counter o] in Hrun, Hids.
  rewrite counters_source_exact in Hids by lia.
  exists d, ids. eexists.
  split; [exact Hd |]. split; [apply not_elem_of_dom, is_fresh |].
  split; [exact Hrun |]. split; [| split; [| split]].
  - apply Forall2_length in Hids. rewrite length_fmap, length_seq in Hids. lia.
  - eapply Forall2_NoDup; [exact Hids | |].
    + apply NoDup_fmap_2; [intros x y; apply Nat2Z.inj | apply NoDup_seq].
    + intros x y b Hx Hy Hxb Hyb.
      apply list_elem_of_fmap in Hx as (i & -> & _).
      apply list_elem_of_fmap in Hy as (j & -> & _).
      apply (encodes_injective d Hp _ _ b); [lia | lia | exact Hxb | exact Hyb].
  - unfold getCounter, get_field, with_counter. simpl. rewrite lookup_insert_eq.
    simpl. f_equal. lia.
  - intros v v' id. apply (encodes_injective d Hp).
Qed.

Lemma counterUUID_ids_distinct_witness :
  exists (d : list string) (ids : list string) (w2 : World),
    arrays example_world !! dict example_world = Some d /\
    instances example_world !! 1%positive = None /\
    counterUUIDs 9 100 1%positive example_started = Returns ids w2 /\
    length ids = 100%nat /\
    NoDup ids /\
    getCounter 1%positive w2 = Returns (Z.of_nat 100) w2 /\
    (forall v v' id, 0 <= v -> 0 <= v' ->
        encodes d v id -> encodes d v' id -> v = v').
Proof.
  apply (counterUUID_ids_distinct example_world None 1%positive example_started 100 9).
  - exact (static_init_initialised example_sort example_sort_permutes
             ConsoleLog example_random).
  - exact example_started_constructed.
  - simpl. lia.
  - lia.
Defined.

(** C2, as stated, fails for [N = 2^53 + 2] calls on the fresh example
    generator: the last two ids are equal, and [getCounter()] is [2^53]
    afterwards, not [N]. *)
Lemma counterUUID_ids_repeat_past_2_53 :
  exists (this : ref) (w1 : World) (ids : list string) (w2 : World),
    constructor None example_world = Returns this w1 /\
    counterUUIDs 9 (Z.to_nat (2 ^ 53 + 2)) this w1 = Returns ids w2 /\
    ~ NoDup ids /\
    getCounter this w2 = Returns (2 ^ 53) w2 /\
    getCounter this w2 <> Returns (2 ^ 53 + 2) w2.
Proof.
  assert (HN : exists N : nat, N = Z.to_nat (2 ^ 53 + 2) /\ Z.of_nat N = 2 ^ 53 + 2).
  { exists (Z.to_nat (2 ^ 53 + 2)). split; [reflexivity | apply Z2Nat.id; lia]. }
  destruct HN as (N & <- & HN).
  assert (Hi : exists i : nat, Z.of_nat i = 2 ^ 53).
  { exists (Z.to_nat (2 ^ 53)). apply Z2Nat.id. lia. }
  destruct Hi as (i & Hi).
  pose proof (static_init_initialised example_sort example_sort_permutes
                ConsoleLog example_random) as Hinit.
  fold example_world in Hinit.
  destruct (constructor_spec None example_world eq_refl) as (w1 & Hnew & Hinst & Hframe).
  pose proof (frame_initialised _ w1 Hframe Hinit) as Hinit1.
  pose proof (initialised_dictLength w1 Hinit1) as Hn1.
  destruct Hinit1 as (d & Hd1 & Hp & Hlen).
  set (this := fresh (dom (instances example_world))) in *.
  assert (Ho : instances w1 !! this = Some (mkShortUID 0 false))
    by (rewrite Hinst; apply lookup_insert_eq).
  destruct (counterUUIDs_spec d this 9 ltac:(lia) N w1 _ Hd1 Hn1 Ho ltac:(simpl; lia))
    as (ids & Hrun & Hids).
  cbn [counter] in Hrun, Hids.
  exists this, w1, ids. eexists.
  split; [exact Hnew |]. split; [exact Hrun |]. split; [| split].
  - intros Hnd.
    set (src := (fun j : nat => Z.min (0 + Z.of_nat j) (2 ^ 53)) <$> seq 0 N) in *.
    assert (H1 : src !! i = Some (2 ^ 53)).
    { subst src. rewrite list_lookup_fmap, lookup_seq_lt by lia. simpl. f_equal. lia. }
    assert (H2 : src !! S i = Some (2 ^ 53)).
    { subst src. rewrite list_lookup_fmap, lookup_seq_lt by lia. simpl. f_equal. lia. }
    destruct (Forall2_lookup_l _ _ _ _ _ Hids H1) as (a & Ha & Hea).
    destruct (Forall2_lookup_l _ _ _ _ _ Hids H2) as (b & Hb & Heb).
    rewrite (encodes_functional d _ _ _ Heb Hea) in Hb.
    pose proof (NoDup_lookup _ _ _ _ Hnd Ha Hb). lia.
  - unfold getCounter, get_field, with_counter. simpl. rewrite lookup_insert_eq.
    simpl. f_equal. lia.
  - unfold getCounter, get_field, with_counter. simpl. rewrite lookup_insert_eq.
    simpl. intros [= H]. lia.
Qed.

(** The loop itself throws only if the dictionary array is missing. *)
Lemma randomUUID_loop_throws (fuel : nat) :
  forall x id i w e w',
    randomUUID_loop fuel x id i w = Throws e w' ->
    e = TypeError /\ arrays w !! dict w = None.
Proof.
  induction fuel as [| fuel IH]; intros x id i w e w' H; cbn [randomUUID_loop] in H.
  - discriminate.
  - destruct (JS.lt _ _); [| discriminate].
    unfold bind at 1 in H. unfold Math_random at 1 in H.
    unfold bind at 1 in H. unfold static_dictLength at 1 in H.
    unfold bind at 1 in H. unfold dict_at, bind, static_dict, array_read, ret in H.
    simpl in H. destruct (arrays w !! dict w) eqn:E.
    + apply IH in H as [-> H]. simpl in H. congruence.
    + injection H as <- _. auto.
Qed.

Lemma lt_six_one : JS.lt (JS.of_int DEFAULT_RANDOM_ID_LEN) (JS.of_int 1) = false.
Proof. reflexivity. Qed.

Lemma example_debugging_reachable : reachable example_sort example_debugging.
Proof.
  unfold example_debugging.
  eapply reachable_step; [| apply step_console].
  apply reachable_step with example_world; [apply example_world_reachable |].
  apply (step_call 0 (New (Some {| opt_debug := Some true |}))).
  vm_compute. reflexivity.
Qed.

Lemma example_debugging_instance :
  instances example_debugging !! 1%positive = Some (mkShortUID 0 true).
Proof. vm_compute. reflexivity. Qed.

(** C3.  The last clause of the claim, that no other operation can fail,
    does not hold of the code.  [log] guards the console with
    [console?.log?.(...)], which skips an undefined [console] and an
    undefined [console.log], but neither an identifier [console] without
    binding nor a [console.log] that is not a function.  There, with
    [debug] on, the constructor throws a [ReferenceError] or a [TypeError],
    and [resetCounter()] throws as well; where [console] is undefined the
    guard works and the constructor returns. *)
Theorem constructor_throws_without_console :
  reachable example_sort example_without_console /\
  on_live_instance example_without_console (New (Some {| opt_debug := Some true |})) /\
  result_of (invoke 9 (New (Some {| opt_debug := Some true |})) example_without_console)
    = Exception ReferenceError /\
  result_of (invoke 9 (New (Some {| opt_debug := Some true |}))
               (set_console ConsoleLogNotCallable example_without_console))
    = Exception TypeError /\
  result_of (invoke 9 (New (Some {| opt_debug := Some true |}))
               (set_console NoConsole example_without_console))
    = Value (VObject 1%positive) /\
  reachable example_sort example_debugging /\
  on_live_instance example_debugging (ResetCounter 1%positive) /\
  result_of (invoke 9 (ResetCounter 1%positive) example_debugging)
    = Exception ReferenceError.
Proof.
  split; [apply reachable_init |]. split; [exact I |].
  split; [vm_compute; reflexivity |]. split; [vm_compute; reflexivity |].
  split; [vm_compute; reflexivity |].
  split; [exact example_debugging_reachable |]. split.
  - exists (mkShortUID 0 true). split; [exact example_debugging_instance | simpl; lia].
  - vm_compute. reflexivity.
Qed.

(** C4, as amended.  For an argument that is an integer [n] with
    [1 <= n <= 2^53] the returned string has exactly [n] characters, and
    with the argument omitted it has exactly six. *)
Theorem randomUUID_length_is_integer_argument (w : World) (this : ref)
    (x : number) (n : Z) (fuel : nat) :
  initialised w -> random_ok w ->
  JS.integer_value x = Some n -> 1 <= n <= 2 ^ 53 ->
  (Z.to_nat n < fuel)%nat -> (6 < fuel)%nat ->
  (exists s w', randomUUID fuel this (Number x) w = Returns s w' /\
                Z.of_nat (String.length s) = n) /\
  returns_that_many w this x /\
  (exists s w', randomUUID fuel this Omitted w = Returns s w' /\
                String.length s = 6%nat).
Proof.
  intros Hinit Hr Hx Hn Hfuel Hfuel6. pose proof (initialised_dictLength w Hinit) as Hlen.
  destruct Hinit as (d & Hd & Hp & _).
  destruct x as [| | m e]; try discriminate.
  pose proof (ceiling_integer m e n Hx) as Hc.
  assert (Hvalid : JS.lt (JS.Dyadic m e) (JS.of_int 1) = false).
  { rewrite (lt_integer m e n 1 Hx). apply Z.ltb_ge. lia. }
  destruct (randomUUID_spec w d this m e fuel Hd Hp Hlen Hr Hvalid
              ltac:(lia) ltac:(lia)) as (s & Hs & Hslen & _).
  split; [| split].
  - exists s. eexists. split; [exact Hs | lia].
  - exists fuel, s. eexists. split; [exact Hs |].
    rewrite Hslen, Hc. unfold JS.eq, JS.of_int.
    pose proof (lt_integer m e n n Hx) as H1.
    unfold JS.lt, JS.of_int in H1. rewrite Z.ltb_irrefl in H1.
    assert (H2 : JS.lt (JS.of_int n) (JS.Dyadic m e) = false).
    { rewrite lt_int_dyadic, Hc. apply Z.ltb_irrefl. }
    unfold JS.lt, JS.of_int in H2. unfold JS.compare_dyadic in *.
    rewrite Z.min_comm in H2. rewrite (Z.min_comm 0 e).
    destruct (Z.compare_spec (n * 2 ^ (0 - Z.min e 0)) (m * 2 ^ (e - Z.min e 0)));
      destruct (Z.compare_spec (m * 2 ^ (e - Z.min e 0)) (n * 2 ^ (0 - Z.min e 0)));
      try reflexivity; try discriminate; lia.
  - destruct (randomUUID_spec w d this 6 0 fuel Hd Hp Hlen Hr lt_six_one
                ltac:(change (ceiling 6 0) with 6; lia)
                ltac:(change (ceiling 6 0) with 6; lia)) as (s6 & Hs6 & Hlen6 & _).
    exists s6. eexists. split; [exact Hs6 |]. change (ceiling 6 0) with 6 in Hlen6. lia.
Qed.

Lemma randomUUID_length_is_integer_argument_witness :
  (exists s w', randomUUID 11 1%positive (Number (JS.of_int 10)) example_started
                  = Returns s w' /\
                Z.of_nat (String.length s) = 10) /\
  returns_that_many example_started 1%positive (JS.of_int 10) /\
  (exists s w', randomUUID 11 1%positive Omitted example_started = Returns s w' /\
                String.length s = 6%nat).
Proof.
  apply (randomUUID_length_is_integer_argument example_started 1%positive
           (JS.of_int 10) 10 11).
  - exact example_started_initialised.
  - exact example_started_random_ok.
  - reflexivity.
  - simpl. lia.
  - simpl. lia.
  - lia.
Defined.

(** C4, as stated, fails at the length 2.5: it passes validation, and the
    string returned has three characters, which is not the length asked
    for. *)
Lemma randomUUID_length_differs_at_2_5 :
  JS.lt (JS.Dyadic 5 (-1)) (JS.of_int 1) = false /\
  (exists w', randomUUID 4 1%positive (Number (JS.Dyadic 5 (-1))) example_started
                = Returns "G3S" w') /\
  ~ returns_that_many example_started 1%positive (JS.Dyadic 5 (-1)).
Proof.
  split; [reflexivity |]. split.
  { eexists. vm_compute. reflexivity. }
  intros (fuel & s & w' & Hcall & Heq).
  pose proof example_started_initialised as Hinit.
  pose proof (initialised_dictLength _ Hinit) as Hlen.
  destruct Hinit as (d & Hd & Hp & _).
  assert (Hshort : forall f : nat, (f < 4)%nat ->
            randomUUID f 1%positive (Number (JS.Dyadic 5 (-1))) example_started
              = OutOfFuel).
  { intros f Hf. destruct f as [| [| [| [| f]]]]; [| | | | lia];
      vm_compute; reflexivity. }
  destruct (Nat.lt_ge_cases fuel 4) as [Hsmall | Hbig].
  { rewrite (Hshort fuel Hsmall) in Hcall. discriminate Hcall. }
  destruct (randomUUID_spec example_started d 1%positive 5 (-1) fuel
              Hd Hp Hlen example_started_random_ok eq_refl
              ltac:(change (ceiling 5 (-1)) with 3; lia)
              ltac:(change (ceiling 5 (-1)) with 3; lia)) as (s3 & Hs3 & Hlen3 & _).
  rewrite Hs3 in Hcall. injection Hcall as -> _.
  change (ceiling 5 (-1)) with 3 in Hlen3. rewrite Hlen3 in Heq.
  assert (Hne : JS.eq (JS.of_int 3) (JS.Dyadic 5 (-1)) = false) by reflexivity.
  congruence.
Qed.

(** C5.  In every reachable world the shared dictionary has exactly 62
    entries, all different, and is a rearrangement of the digits, the
    lowercase and the uppercase letters; [getDictLength()] returns 62, the
    length of the array [getDict()] returns. *)
Theorem dictionary_has_62_unique_characters (sort : list string -> list string)
    (w : World) (this : ref) :
  (forall l : list string, sort l ≡ₚ l) -> reachable sort w ->
  exists d : list string,
    arrays w !! dict w = Some d /\
    length d = 62%nat /\
    NoDup d /\
    d ≡ₚ alphabet /\
    Forall (fun c => String.length c = 1%nat) d /\
    getDictLength this w = Returns 62 w /\
    exists (r : ref) (w' : World) (copy : list string),
      getDict this w = Returns r w' /\
      arrays w' !! r = Some copy /\
      copy = d /\
      Z.of_nat (length copy) = 62.
Proof.
  intros Hsort Hreach.
  pose proof (reachable_initialised sort Hsort w Hreach) as Hinit.
  pose proof (initialised_dictLength w Hinit) as Hn.
  destruct Hinit as (d & Hd & Hp & Hlen).
  exists d. split; [exact Hd |].
  split; [exact (dict_length d Hp) |].
  split; [exact (dict_NoDup d Hp) |].
  split; [rewrite <- unshuffled_dict_alphabet; exact Hp |].
  split; [exact (dict_single d Hp) |].
  split; [unfold getDictLength, static_dictLength; now rewrite Hn |].
  exists (fresh (dom (arrays w))). eexists. exists d.
  split; [| split; [| split]].
  - unfold getDict, bind, static_dict, array_read, array_new. rewrite Hd. reflexivity.
  - simpl. apply lookup_insert_eq.
  - reflexivity.
  - rewrite (dict_length d Hp). reflexivity.
Qed.

Lemma dictionary_has_62_unique_characters_witness :
  exists d : list string,
    arrays example_started !! dict example_started = Some d /\
    length d = 62%nat /\
    NoDup d /\
    d ≡ₚ alphabet /\
    Forall (fun c => String.length c = 1%nat) d /\
    getDictLength 1%positive example_started = Returns 62 example_started /\
    exists (r : ref) (w' : World) (copy : list string),
      getDict 1%positive example_started = Returns r w' /\
      arrays w' !! r = Some copy /\
      copy = d /\
      Z.of_nat (length copy) = 62.
Proof.
  apply (dictionary_has_62_unique_characters example_sort example_started 1%positive).
  - exact example_sort_permutes.
  - exact example_started_reachable.
Defined.

Lemma fresh_not_dict (w : World) (d : list string) :
  arrays w !! dict w = Some d -> fresh (dom (arrays w)) <> dict w.
Proof.
  intros Hd Heq. pose proof (is_fresh (dom (arrays w))) as Hf. rewrite Heq in Hf.
  apply Hf, elem_of_dom. eauto.
Qed.

Lemma getDict_spec (w : World) (this : ref) (d : list string) :
  arrays w !! dict w = Some d ->
  getDict this w
    = Returns (fresh (dom (arrays w)))
        (set_arrays (<[fresh (dom (arrays w)) := d]> (arrays w)) w).
Proof.
  intros Hd. unfold getDict, bind, static_dict, array_read, array_new.
  now rewrite Hd.
Qed.

(** C6.  [getDict()] returns a copy: whatever the caller then does to the
    array it got ([f] is any change of its contents), the shared dictionary
    is as before, a later [getDict()] returns another array with the
    original contents, and every later run of calls (generation included)
    returns what it would have returned without the change.  Two successive
    calls return different arrays with equal contents. *)
Theorem getDict_returns_a_copy (w : World) (this : ref)
    (f : list string -> list string) (fuel : nat) (cs : list call) :
  initialised w ->
  exists (d : list string) (r1 : ref) (w1 w2 : World),
    arrays w !! dict w = Some d /\
    getDict this w = Returns r1 w1 /\
    arrays w1 !! r1 = Some d /\
    r1 <> dict w1 /\
    array_mutate r1 f w1 = Returns tt w2 /\
    arrays w2 !! r1 = Some (f d) /\
    arrays w2 !! dict w2 = Some d /\
    initialised w2 /\
    (exists (r2 : ref) (w3 : World),
        getDict this w2 = Returns r2 w3 /\
        r2 <> r1 /\ r2 <> dict w3 /\
        arrays w3 !! r2 = Some d /\
        arrays w3 !! r1 = Some (f d)) /\
    (exists (r2 : ref) (w3 : World),
        getDict this w1 = Returns r2 w3 /\
        r2 <> r1 /\
        arrays w3 !! r2 = Some d /\
        arrays w3 !! r1 = Some d) /\
    run fuel cs w2 = run fuel cs w1.
Proof.
  intros Hinit. pose proof Hinit as (d & Hd & Hp & Hlen).
  set (r1 := fresh (dom (arrays w))).
  set (w1 := set_arrays (<[r1 := d]> (arrays w)) w).
  set (w2 := set_arrays (alter f r1 (arrays w1)) w1).
  assert (Hr1 : r1 <> dict w) by exact (fresh_not_dict w d Hd).
  assert (H11 : arrays w1 !! r1 = Some d) by apply lookup_insert_eq.
  assert (Hd1 : arrays w1 !! dict w1 = Some d).
  { simpl. rewrite lookup_insert_ne by exact Hr1. exact Hd. }
  assert (H21 : arrays w2 !! r1 = Some (f d)).
  { simpl. rewrite lookup_alter_eq, lookup_insert_eq. reflexivity. }
  assert (Hd2 : arrays w2 !! dict w2 = Some d).
  { simpl. rewrite lookup_alter_ne by exact Hr1.
    rewrite lookup_insert_ne by exact Hr1. exact Hd. }
  exists d, r1, w1, w2.
  split; [exact Hd |]. split; [exact (getDict_spec w this d Hd) |].
  split; [exact H11 |]. split; [exact Hr1 |]. split; [reflexivity |].
  split; [exact H21 |]. split; [exact Hd2 |].
  split; [exists d; repeat split; [exact Hd2 | exact Hp | exact Hlen] |].
  split; [| split].
  - exists (fresh (dom (arrays w2))). eexists.
    split; [exact (getDict_spec w2 this d Hd2) |].
    assert (Hne : fresh (dom (arrays w2)) <> r1).
    { intros Heq. pose proof (is_fresh (dom (arrays w2))) as Hf. rewrite Heq in Hf.
      apply Hf, elem_of_dom. eauto. }
    split; [exact Hne |]. split; [exact (fresh_not_dict w2 d Hd2) |]. split.
    + apply lookup_insert_eq.
    + cbn [arrays set_arrays]. rewrite lookup_insert_ne by exact Hne. exact H21.
  - exists (fresh (dom (arrays w1))). eexists.
    split; [exact (getDict_spec w1 this d Hd1) |].
    assert (Hne : fresh (dom (arrays w1)) <> r1).
    { intros Heq. pose proof (is_fresh (dom (arrays w1))) as Hf. rewrite Heq in Hf.
      apply Hf, elem_of_dom. eauto. }
    split; [exact Hne |]. split.
    + apply lookup_insert_eq.
    + cbn [arrays set_arrays]. rewrite lookup_insert_ne by exact Hne. exact H11.
  - apply run_similar. unfold similar. subst w2. cbn [set_arrays arrays instances
      dict dictLength random draws]. repeat split; auto.
    + apply dom_alter_L.
    + rewrite lookup_alter_ne by exact Hr1. reflexivity.
    + congruence.
    + right. split; [reflexivity |]. intros r o1 o2 H1 H2.
      cbn [set_arrays instances] in H1, H2. congruence.
Qed.

Lemma getDict_returns_a_copy_witness :
  exists (d : list string) (r1 : ref) (w1 w2 : World),
    arrays example_started !! dict example_started = Some d /\
    getDict 1%positive example_started = Returns r1 w1 /\
    arrays w1 !! r1 = Some d /\
    r1 <> dict w1 /\
    array_mutate r1 (fun a => <[0%nat := "?"]> a) w1 = Returns tt w2 /\
    arrays w2 !! r1 = Some (<[0%nat := "?"]> d) /\
    arrays w2 !! dict w2 = Some d /\
    initialised w2 /\
    (exists (r2 : ref) (w3 : World),
        getDict 1%positive w2 = Returns r2 w3 /\
        r2 <> r1 /\ r2 <> dict w3 /\
        arrays w3 !! r2 = Some d /\
        arrays w3 !! r1 = Some (<[0%nat := "?"]> d)) /\
    (exists (r2 : ref) (w3 : World),
        getDict 1%positive w1 = Returns r2 w3 /\
        r2 <> r1 /\
        arrays w3 !! r2 = Some d /\
        arrays w3 !! r1 = Some d) /\
    run 9 [CounterUUID 1%positive; RandomUUID 1%positive Omitted; GetDict 1%positive] w2
      = run 9 [CounterUUID 1%positive; RandomUUID 1%positive Omitted; GetDict 1%positive] w1.
Proof.
  apply (getDict_returns_a_copy example_started 1%positive
           (fun a => <[0%nat := "?"]> a) 9
           [CounterUUID 1%positive; RandomUUID 1%positive Omitted; GetDict 1%positive]).
  exact example_started_initialised.
Defined.

(** The loop never touches the instances. *)
Lemma randomUUID_loop_instances (fuel : nat) :
  forall x id i w w',
    world_of (randomUUID_loop fuel x id i w) = Some w' -> instances w' = instances w.
Proof.
  induction fuel as [| fuel IH]; intros x id i w w' H; cbn [randomUUID_loop] in H.
  - discriminate.
  - destruct (JS.lt _ _); [| injection H as <-; reflexivity].
    unfold bind at 1 in H. unfold Math_random at 1 in H.
    unfold bind at 1 in H. unfold static_dictLength at 1 in H.
    unfold bind at 1 in H. unfold dict_at, bind, static_dict, array_read, ret in H.
    simpl in H. destruct (arrays w !! dict w).
    + apply IH in H. exact H.
    + injection H as <-. reflexivity.
Qed.

Lemma randomUUID_instances (fuel : nat) (this : ref) (a : argument) (w w' : World) :
  world_of (randomUUID fuel this a w) = Some w' -> instances w' = instances w.
Proof.
  unfold randomUUID. destruct (_ || _).
  - intros [= <-]. reflexivity.
  - apply randomUUID_loop_instances.
Qed.

(** C7.  [randomUUID] leaves the counter alone: for a usable length the
    call returns, [getCounter()] reads the same before and after, and every
    character of the result is an element of what [getDict()] returns; and
    whatever the argument and however the call ends, the counter is not
    changed. *)
Theorem randomUUID_keeps_counter (w : World) (this : ref) (o : ShortUID) (a : argument) :
  initialised w -> random_ok w -> instances w !! this = Some o -> usable_length a ->
  (exists (fuel : nat) (s : string) (w' : World),
      randomUUID fuel this a w = Returns s w' /\
      getCounter this w = Returns (counter o) w /\
      getCounter this w' = Returns (counter o) w' /\
      exists (r : ref) (w'' : World) (elements : list string),
        getDict this w' = Returns r w'' /\
        arrays w'' !! r = Some elements /\
        Forall (fun c => c ∈ elements) (characters s)) /\
  (forall (fuel : nat) (a' : argument) (w' : World),
      world_of (randomUUID fuel this a' w) = Some w' ->
      getCounter this w' = Returns (counter o) w').
Proof.
  intros Hinit Hr Ho Ha. pose proof (initialised_dictLength w Hinit) as Hn.
  destruct Hinit as (d & Hd & Hp & Hlen).
  assert (Hframe : forall fuel a' w',
            world_of (randomUUID fuel this a' w) = Some w' ->
            getCounter this w' = Returns (counter o) w').
  { intros fuel a' w' H. apply randomUUID_instances in H.
    unfold getCounter, get_field. now rewrite H, Ho. }
  split; [| exact Hframe].
  assert (Hnum : exists m e,
             JS.lt (JS.Dyadic m e) (JS.of_int 1) = false /\ ceiling m e <= 2 ^ 53 /\
             forall fuel, randomUUID fuel this a w
                          = randomUUID fuel this (Number (JS.Dyadic m e)) w).
  { destruct Ha as [-> | [-> | (m & e & -> & Hv & Hc)]].
    - exists 6, 0. split; [reflexivity |]. split; [change (ceiling 6 0) with 6; lia |].
      reflexivity.
    - exists 6, 0. split; [reflexivity |]. split; [change (ceiling 6 0) with 6; lia |].
      reflexivity.
    - exists m, e. auto. }
  destruct Hnum as (m & e & Hv & Hc & Hsame).
  destruct (randomUUID_spec w d this m e (S (Z.to_nat (ceiling m e))) Hd Hp Hn Hr Hv Hc
              ltac:(lia)) as (s & Hs & _ & Hchars).
  rewrite <- Hsame in Hs.
  exists (S (Z.to_nat (ceiling m e))), s. eexists. split; [exact Hs |].
  split; [unfold getCounter, get_field; now rewrite Ho |].
  split; [apply (Hframe (S (Z.to_nat (ceiling m e))) a); now rewrite Hs |].
  set (w' := set_draws _ w).
  assert (Hd' : arrays w' !! dict w' = Some d) by exact Hd.
  exists (fresh (dom (arrays w'))). eexists. exists d.
  split; [exact (getDict_spec w' this d Hd') |]. split; [apply lookup_insert_eq |].
  exact Hchars.
Qed.

Lemma randomUUID_keeps_counter_witness :
  (exists (fuel : nat) (s : string) (w' : World),
      randomUUID fuel 1%positive (Number (JS.Dyadic 5 (-1))) example_started
        = Returns s w' /\
      getCounter 1%positive example_started = Returns 0 example_started /\
      getCounter 1%positive w' = Returns 0 w' /\
      exists (r : ref) (w'' : World) (elements : list string),
        getDict 1%positive w' = Returns r w'' /\
        arrays w'' !! r = Some elements /\
        Forall (fun c => c ∈ elements) (characters s)) /\
  (forall (fuel : nat) (a' : argument) (w' : World),
      world_of (randomUUID fuel 1%positive a' example_started) = Some w' ->
      getCounter 1%positive w' = Returns 0 w').
Proof.
  apply (randomUUID_keeps_counter example_started 1%positive (mkShortUID 0 false)
           (Number (JS.Dyadic 5 (-1)))).
  - exact example_started_initialised.
  - exact example_started_random_ok.
  - exact example_started_instance.
  - right. right. exists 5, (-1). split; [reflexivity |]. split; [reflexivity |].
    change (ceiling 5 (-1)) with 3. lia.
Defined.

(** [resetCounter()] stores 0 and then logs: it returns, or throws what
    [log] throws, with the counter at 0 either way. *)
Lemma resetCounter_outcome (w : World) (this : ref) (o : ShortUID) :
  instances w !! this = Some o ->
  exists w1 : World,
    resetCounter this w
      = match log_error w (ResetCounter this) with
        | Some e => Throws e w1
        | None => Returns tt w1
        end /\
    instances w1 = <[this := mkShortUID 0 (debug o)]> (instances w) /\
    frame w w1.
Proof.
  intros Ho.
  unfold log_error, resetCounter, bind, set_counter, log, bind, get_field,
    console_log, ret.
  rewrite Ho. simpl. rewrite lookup_insert_eq. simpl.
  destruct (debug o); simpl; [destruct (console w) |]; simpl;
    eexists; (split; [reflexivity |]); (split; [reflexivity |]);
    unfold frame; simpl; auto.
Qed.

Lemma resetCounter_world (w : World) (this : ref) (o : ShortUID) :
  instances w !! this = Some o ->
  exists w1 : World,
    world_of (resetCounter this w) = Some w1 /\
    (log_error w (ResetCounter this) = None -> resetCounter this w = Returns tt w1) /\
    instances w1 = <[this := mkShortUID 0 (debug o)]> (instances w) /\
    frame w w1.
Proof.
  intros Ho. destruct (resetCounter_outcome w this o Ho) as (w1 & Hout & Hrest).
  exists w1. rewrite Hout.
  destruct (log_error w (ResetCounter this)); (split; [reflexivity |]);
    (split; [| exact Hrest]); [discriminate | reflexivity].
Qed.

(** C8.  [resetCounter()] leaves the counter at 0 whatever it was ([w1] is
    the world it leaves: it returns where its [log] does not throw, and has
    stored 0 before [log] runs), and the next [counterUUID()] returns the
    one character [dict[0]], as does the first [counterUUID()] of a newly
    constructed generator. *)
Theorem resetCounter_restarts_at_zero (w : World) (this : ref) (o : ShortUID)
    (options : option ShortUIDOptions) (new : ref) (wn : World) (fuel : nat) :
  initialised w -> instances w !! this = Some o ->
  constructor options w = Returns new wn -> (1 <= fuel)%nat ->
  exists (d : list string) (c : string) (w1 : World),
    arrays w !! dict w = Some d /\
    d !! 0%nat = Some c /\
    String.length c = 1%nat /\
    world_of (resetCounter this w) = Some w1 /\
    (log_error w (ResetCounter this) = None -> resetCounter this w = Returns tt w1) /\
    getCounter this w1 = Returns 0 w1 /\
    (exists w2, counterUUID fuel this w1 = Returns c w2) /\
    (exists wn', counterUUID fuel new wn = Returns c wn').
Proof.
  intros Hinit Ho Hnew Hfuel. pose proof (initialised_dictLength w Hinit) as Hn.
  destruct Hinit as (d & Hd & Hp & Hlen).
  destruct (dict_lookup d Hp 0 ltac:(lia)) as (c & Hc & _ & Hclen).
  change (Z.to_nat 0) with 0%nat in Hc.
  destruct (resetCounter_world w this o Ho) as (w1 & Hreset & Hreturns & Hinst & Hframe).
  assert (Ho1 : instances w1 !! this = Some (mkShortUID 0 (debug o)))
    by (rewrite Hinst; apply lookup_insert_eq).
  assert (Hd1 : arrays w1 !! dict w1 = Some d) by (apply Hframe, Hd).
  assert (Hn1 : dictLength w1 = 62) by (destruct Hframe as (_ & -> & _); exact Hn).
  exists d, c, w1. split; [exact Hd |]. split; [exact Hc |]. split; [exact Hclen |].
  split; [exact Hreset |]. split; [exact Hreturns |].
  split; [unfold getCounter, get_field; now rewrite Ho1 |]. split.
  - exact (counterUUID_at_zero w1 d this _ c fuel Hd1 Hn1 Hc Ho1 eq_refl Hfuel).
  - destruct (constructor_inv options w new wn Hnew) as (-> & Hinstn & Hframen & _).
    assert (Hon : instances wn !! fresh (dom (instances w))
                  = Some (mkShortUID 0 (default false
                            (opt_debug (default {| opt_debug := None |} options)))))
      by (rewrite Hinstn; apply lookup_insert_eq).
    assert (Hdn : arrays wn !! dict wn = Some d) by (apply Hframen, Hd).
    assert (Hnn : dictLength wn = 62) by (destruct Hframen as (_ & -> & _); exact Hn).
    exact (counterUUID_at_zero wn d _ _ c fuel Hdn Hnn Hc Hon eq_refl Hfuel).
Qed.

Lemma resetCounter_restarts_at_zero_witness :
  exists (d : list string) (c : string) (w1 : World),
    arrays limit_world !! dict limit_world = Some d /\
    d !! 0%nat = Some c /\
    String.length c = 1%nat /\
    world_of (resetCounter 1%positive limit_world) = Some w1 /\
    (log_error limit_world (ResetCounter 1%positive) = None ->
     resetCounter 1%positive limit_world = Returns tt w1) /\
    getCounter 1%positive w1 = Returns 0 w1 /\
    (exists w2, counterUUID 9 1%positive w1 = Returns c w2) /\
    (exists wn', counterUUID 9 (fresh (dom (instances limit_world)))
                   (default limit_world (world_of (constructor None limit_world)))
                 = Returns c wn').
Proof.
  apply (resetCounter_restarts_at_zero limit_world 1%positive
           (mkShortUID (2 ^ 53) false) None
           (fresh (dom (instances limit_world)))
           (default limit_world (world_of (constructor None limit_world))) 9).
  - exact (reachable_initialised example_sort example_sort_permutes limit_world
             limit_world_reachable).
  - apply lookup_insert_eq.
  - exact (constructed None limit_world eq_refl).
  - lia.
Defined.

(** C9.  The claim does not hold of the code where the identifier
    [console] has no binding: [console?.log?.(...)] skips an undefined
    [console], but evaluating an identifier without binding throws.
    Constructing with [debug] on then throws a [ReferenceError] where
    constructing with [debug] off returns the generator, so the setting of
    [debug] shows in what the caller gets; and [log] on a live generator
    with [debug] on throws instead of being skipped.  Where [console] is
    undefined the call is skipped. *)
Theorem debug_logging_throws_without_console :
  reachable example_sort example_without_console /\
  run 9 [New (Some {| opt_debug := Some true |})] example_without_console
    = [Exception ReferenceError] /\
  run 9 [New (Some {| opt_debug := Some false |})] example_without_console
    = [Value (VObject 1%positive)] /\
  instances example_debugging !! 1%positive = Some (mkShortUID 0 true) /\
  log 1%positive "Counter reset to 0" example_debugging
    = Throws ReferenceError example_debugging /\
  log 1%positive "Counter reset to 0" (set_console NoConsole example_debugging)
    = Returns tt (set_console NoConsole example_debugging).
Proof.
  split; [apply reachable_init |].
  split; [vm_compute; reflexivity |]. split; [vm_compute; reflexivity |].
  pose proof example_debugging_instance as Ho.
  split; [exact Ho |].
  unfold log, bind, get_field, console_log, ret.
  split; cbn [set_console instances]; cbn [set_console instances] in Ho;
    rewrite Ho; reflexivity.
Qed.




(** ** Further properties of the operations *)

Lemma foldr_append_app (l1 l2 : list string) :
  foldr String.append "" (l1 ++ l2)
  = foldr String.append "" l1 +:+ foldr String.append "" l2.
Proof.
  induction l1 as [| x l1 IH]; [reflexivity |].
  simpl. rewrite IH. now rewrite append_assoc.
Qed.

Lemma random_string_0 (d : list string) (rnd : nat -> number) (start : nat) :
  random_string d rnd start 0 = "".
Proof. reflexivity. Qed.

Lemma random_string_S (d : list string) (rnd : nat -> number) (start n : nat) :
  random_string d rnd start (S n)
  = drawn_character d (rnd start) +:+ random_string d rnd (S start) n.
Proof. reflexivity. Qed.

Lemma random_string_add (d : list string) (rnd : nat -> number) (start a b : nat) :
  random_string d rnd start (a + b)
  = random_string d rnd start a +:+ random_string d rnd (start + a) b.
Proof.
  unfold random_string. rewrite seq_app, fmap_app. apply foldr_append_app.
Qed.

Section RandomLoopExact.

Variable d : list string.
Variables m e : Z.
Hypothesis bounded : ceiling m e <= 2 ^ 53.

(** The loop appends the characters of the next [k] draws. *)
Lemma randomUUID_loop_exact (k : nat) :
  forall (fuel : nat) (id : string) (idIndex : Z) (w : World),
    arrays w !! dict w = Some d -> dictLength w = 62 ->
    0 <= idIndex -> idIndex + Z.of_nat k = ceiling m e -> (k < fuel)%nat ->
    randomUUID_loop fuel (JS.Dyadic m e) id idIndex w
      = Returns (id +:+ random_string d (random w) (draws w) k)
          (set_draws (draws w + k) w).
Proof.
  induction k as [| k IH]; intros fuel id idIndex w Hd Hn Hi Hk Hfuel;
    (destruct fuel as [| fuel]; [lia |]); cbn [randomUUID_loop];
    rewrite lt_int_dyadic.
  - destruct (Z.ltb_spec idIndex (ceiling m e)); [lia |].
    rewrite random_string_0, append_nil_r, set_draws_add_0. reflexivity.
  - destruct (Z.ltb_spec idIndex (ceiling m e)); [| lia].
    unfold bind at 1. unfold Math_random at 1.
    unfold bind at 1. unfold static_dictLength at 1.
    set (w1 := set_draws (S (draws w)) w).
    change (dictLength w1) with (dictLength w). rewrite Hn.
    unfold bind at 1. rewrite (dict_at_returns w1 d Hd).
    rewrite incr_exact by lia.
    rewrite (IH fuel _ (idIndex + 1) w1 Hd Hn ltac:(lia) ltac:(lia) ltac:(lia)).
    subst w1. rewrite set_draws_step. rewrite random_string_S, append_assoc.
    reflexivity.
Qed.

End RandomLoopExact.

Lemma randomUUID_exact (w : World) (d : list string) (this : ref) (m e : Z)
    (fuel : nat) :
  arrays w !! dict w = Some d -> dictLength w = 62 ->
  JS.lt (JS.Dyadic m e) (JS.of_int 1) = false -> ceiling m e <= 2 ^ 53 ->
  (Z.to_nat (ceiling m e) < fuel)%nat ->
  randomUUID fuel this (Number (JS.Dyadic m e)) w
    = Returns (random_string d (random w) (draws w) (Z.to_nat (ceiling m e)))
        (set_draws (draws w + Z.to_nat (ceiling m e)) w).
Proof.
  intros Hd Hn Hvalid Hb Hfuel.
  pose proof (not_lt_one_ceiling m e Hvalid) as Hc.
  unfold randomUUID, or_default, loosely_null, ToNumber.
  rewrite Hvalid. change (false || false) with false. cbv iota.
  exact (randomUUID_loop_exact d m e Hb (Z.to_nat (ceiling m e)) fuel "" 0 w
           Hd Hn ltac:(lia) ltac:(lia) Hfuel).
Qed.

Lemma integer_value_of_int (a : Z) : JS.integer_value (JS.of_int a) = Some a.
Proof. unfold JS.integer_value, JS.of_int. simpl. now rewrite Z.mul_1_r. Qed.

Lemma ceiling_of_int (a : Z) : ceiling a 0 = a.
Proof. unfold ceiling. simpl. apply Z.mul_1_r. Qed.

Lemma lt_of_int_one (a : Z) : 1 <= a -> JS.lt (JS.of_int a) (JS.of_int 1) = false.
Proof.
  intros Ha. unfold JS.of_int at 1.
  rewrite (lt_integer a 0 a 1 (integer_value_of_int a)). apply Z.ltb_ge. lia.
Qed.

Lemma to_string_nonempty (d : list string) (i : number) :
  Forall (fun c => String.length c = 1%nat) d ->
  JS.to_string (JS.array_get d i) <> "".
Proof.
  intros Hd. unfold JS.array_get.
  destruct (JS.integer_value i) as [z |]; [| discriminate].
  destruct (0 <=? z); [| discriminate].
  destruct (d !! Z.to_nat z) as [c |] eqn:E; [| discriminate].
  simpl. rewrite Forall_forall in Hd.
  pose proof (Hd c (list_elem_of_lookup_2 _ _ _ E)) as Hlen.
  intros ->. discriminate Hlen.
Qed.

Lemma append_nil_l (s : string) : "" +:+ s = s.
Proof. reflexivity. Qed.

Lemma append_nonempty (s t : string) : s <> "" -> s +:+ t <> "".
Proof. destruct s; [congruence | intros _; discriminate]. Qed.

(** The characters a draw selects are never empty. *)
Lemma drawn_character_nonempty (d : list string) (r : number) :
  Forall (fun c => String.length c = 1%nat) d -> drawn_character d r <> "".
Proof. intros Hd. apply to_string_nonempty, Hd. Qed.

(** With every draw in [0, 1), a string of [n] draws has [n] characters. *)
Lemma random_string_length (d : list string) (rnd : nat -> number) :
  d ≡ₚ unshuffled_dict ->
  (forall i : nat, in_unit_interval (rnd i) = true) ->
  forall n start : nat, String.length (random_string d rnd start n) = n.
Proof.
  intros Hp Hr. induction n as [| n IH]; intros start.
  - reflexivity.
  - rewrite random_string_S, length_append, IH.
    unfold drawn_character.
    destruct (random_index (rnd start) 62 (Hr start) ltac:(lia)) as (i & Hi & ->).
    destruct (dict_lookup d Hp i Hi) as (c & Hc & _ & Hlen).
    rewrite (array_get_index d i) by lia. rewrite Hc. simpl. now rewrite Hlen.
Qed.

(** X1.  The draws are used in order, one per character.  For integers
    [a, b >= 1] with [a + b <= 2^53], in a world where the class is
    initialised, [randomUUID(a)] returns the characters selected by the
    next [a] draws, in their order, and leaves the random source [a] draws
    further; [randomUUID(b)] after it returns those of the [b] draws that
    follow; and [randomUUID(a + b)] from the first world returns the first
    string followed by the second, and leaves the world the two calls
    leave.  Where every draw is in [0, 1), the two strings have [a] and
    [b] characters. *)
Theorem randomUUID_splits (w : World) (this : ref) (a b : Z) (fuel : nat) :
  initialised w -> 1 <= a -> 1 <= b -> a + b <= 2 ^ 53 ->
  (Z.to_nat (a + b) < fuel)%nat ->
  exists (d : list string) (s1 s2 : string) (w1 w2 : World),
    arrays w !! dict w = Some d /\
    s1 = random_string d (random w) (draws w) (Z.to_nat a) /\
    s2 = random_string d (random w) (draws w + Z.to_nat a) (Z.to_nat b) /\
    w1 = set_draws (draws w + Z.to_nat a) w /\
    w2 = set_draws (draws w + Z.to_nat a + Z.to_nat b) w /\
    randomUUID fuel this (Number (JS.of_int a)) w = Returns s1 w1 /\
    randomUUID fuel this (Number (JS.of_int b)) w1 = Returns s2 w2 /\
    randomUUID fuel this (Number (JS.of_int (a + b))) w = Returns (s1 +:+ s2) w2 /\
    s1 <> "" /\ s2 <> "" /\
    (random_ok w ->
     String.length s1 = Z.to_nat a /\ String.length s2 = Z.to_nat b).
Proof.
  intros Hinit Ha Hb Hab Hfuel. pose proof (initialised_dictLength w Hinit) as Hn.
  destruct Hinit as (d & Hd & Hp & _).
  set (na := Z.to_nat a). set (nb := Z.to_nat b).
  pose proof (randomUUID_exact w d this a 0 fuel Hd Hn (lt_of_int_one a Ha)) as H1.
  rewrite ceiling_of_int in H1. specialize (H1 ltac:(lia) ltac:(lia)). fold na in H1.
  set (w1 := set_draws (draws w + na) w) in *.
  pose proof (randomUUID_exact w1 d this b 0 fuel Hd Hn (lt_of_int_one b Hb)) as H2.
  rewrite ceiling_of_int in H2. specialize (H2 ltac:(lia) ltac:(lia)). fold nb in H2.
  pose proof (randomUUID_exact w d this (a + b) 0 fuel Hd Hn
                (lt_of_int_one (a + b) ltac:(lia))) as H3.
  rewrite ceiling_of_int in H3. specialize (H3 ltac:(lia) ltac:(lia)).
  replace (Z.to_nat (a + b)) with (na + nb)%nat in H3 by lia.
  assert (Hw : set_draws (draws w1 + nb) w1 = set_draws (draws w + na + nb) w).
  { subst w1. destruct w. unfold set_draws. simpl. reflexivity. }
  assert (Hw' : set_draws (draws w + (na + nb)) w = set_draws (draws w + na + nb) w).
  { destruct w. unfold set_draws. simpl. f_equal. lia. }
  rewrite Hw in H2. rewrite Hw' in H3.
  change (random w1) with (random w) in H2.
  change (draws w1) with (draws w + na)%nat in H2.
  assert (Hone : forall start n : nat,
            (1 <= n)%nat -> random_string d (random w) start n <> "").
  { intros start n Hn1. destruct n as [| n]; [lia |].
    rewrite random_string_S. apply append_nonempty.
    apply drawn_character_nonempty, (dict_single d Hp). }
  exists d, (random_string d (random w) (draws w) na),
         (random_string d (random w) (draws w + na) nb), w1,
         (set_draws (draws w + na + nb) w).
  split; [exact Hd |]. split; [reflexivity |]. split; [reflexivity |].
  split; [reflexivity |]. split; [reflexivity |].
  split; [exact H1 |]. split; [exact H2 |]. split.
  { etransitivity; [exact H3 |]. f_equal. apply random_string_add. }
  split; [apply Hone; lia |]. split; [apply Hone; lia |].
  intros Hr. split; apply (random_string_length d (random w) Hp Hr).
Qed.

Lemma randomUUID_splits_witness :
  exists (d : list string) (s1 s2 : string) (w1 w2 : World),
    arrays example_started !! dict example_started = Some d /\
    s1 = random_string d (random example_started) (draws example_started) (Z.to_nat 2) /\
    s2 = random_string d (random example_started)
           (draws example_started + Z.to_nat 2) (Z.to_nat 3) /\
    w1 = set_draws (draws example_started + Z.to_nat 2) example_started /\
    w2 = set_draws (draws example_started + Z.to_nat 2 + Z.to_nat 3) example_started /\
    randomUUID 10 1%positive (Number (JS.of_int 2)) example_started = Returns s1 w1 /\
    randomUUID 10 1%positive (Number (JS.of_int 3)) w1 = Returns s2 w2 /\
    randomUUID 10 1%positive (Number (JS.of_int (2 + 3))) example_started
      = Returns (s1 +:+ s2) w2 /\
    s1 <> "" /\ s2 <> "" /\
    (random_ok example_started ->
     String.length s1 = Z.to_nat 2 /\ String.length s2 = Z.to_nat 3).
Proof.
  apply (randomUUID_splits example_started 1%positive 2 3 10).
  - exact example_started_initialised.
  - lia.
  - lia.
  - simpl. lia.
  - simpl. lia.
Defined.

(** X2.  The two generators do not interfere: [counterUUID()] draws
    nothing and [randomUUID(n)] leaves the counter alone, so calling them in
    either order gives the same id, the same random string and the same
    world. *)
Theorem counterUUID_randomUUID_commute (w : World) (this : ref) (o : ShortUID)
    (m e : Z) (fuel : nat) :
  initialised w -> instances w !! this = Some o -> 0 <= counter o <= 2 ^ 53 ->
  JS.lt (JS.Dyadic m e) (JS.of_int 1) = false -> ceiling m e <= 2 ^ 53 ->
  (9 <= fuel)%nat -> (Z.to_nat (ceiling m e) < fuel)%nat ->
  exists (id s : string) (w_c w_r w' : World),
    counterUUID fuel this w = Returns id w_c /\
    randomUUID fuel this (Number (JS.Dyadic m e)) w_c = Returns s w' /\
    randomUUID fuel this (Number (JS.Dyadic m e)) w = Returns s w_r /\
    counterUUID fuel this w_r = Returns id w'.
Proof.
  intros Hinit Ho Hc Hvalid Hb Hfuel9 Hfuel.
  pose proof (initialised_dictLength w Hinit) as Hn.
  destruct Hinit as (d & Hd & Hp & _).
  pose proof (limit_below_fuel fuel Hfuel9) as Hlim.
  destruct (counterUUID_spec w d this o fuel Hd Hn Ho ltac:(lia) ltac:(lia)
              ltac:(lia)) as (id & Hid & Hcall).
  set (w_c := with_counter this o (JS.incr (counter o)) w) in *.
  set (n := Z.to_nat (ceiling m e)) in *.
  pose proof (randomUUID_exact w_c d this m e fuel Hd Hn Hvalid Hb Hfuel) as Hr1.
  pose proof (randomUUID_exact w d this m e fuel Hd Hn Hvalid Hb Hfuel) as Hr2.
  fold n in Hr1, Hr2.
  set (w_r := set_draws (draws w + n) w) in *.
  destruct (counterUUID_spec w_r d this o fuel Hd Hn Ho ltac:(lia) ltac:(lia)
              ltac:(lia)) as (id' & Hid' & Hcall').
  rewrite (encodes_functional d _ _ _ Hid' Hid) in Hcall'.
  exists id, (random_string d (random w) (draws w) n), w_c, w_r.
  eexists. split; [exact Hcall |]. split; [exact Hr1 |]. split; [exact Hr2 |].
  exact Hcall'.
Qed.

Lemma counterUUID_randomUUID_commute_witness :
  exists (id s : string) (w_c w_r w' : World),
    counterUUID 9 1%positive example_started = Returns id w_c /\
    randomUUID 9 1%positive (Number (JS.Dyadic 5 (-1))) w_c = Returns s w' /\
    randomUUID 9 1%positive (Number (JS.Dyadic 5 (-1))) example_started
      = Returns s w_r /\
    counterUUID 9 1%positive w_r = Returns id w'.
Proof.
  apply (counterUUID_randomUUID_commute example_started 1%positive
           (mkShortUID 0 false) 5 (-1) 9).
  - exact example_started_initialised.
  - exact example_started_instance.
  - simpl. lia.
  - reflexivity.
  - change (ceiling 5 (-1)) with 3. lia.
  - lia.
  - change (ceiling 5 (-1)) with 3. lia.
Defined.

(** Equal sources and a functional relation give equal images. *)
Lemma Forall2_functional {A B} (R : A -> B -> Prop) (l : list A) (l1 l2 : list B) :
  (forall x a b, R x a -> R x b -> a = b) ->
  Forall2 R l l1 -> Forall2 R l l2 -> l1 = l2.
Proof.
  intros HR H1. revert l2. induction H1 as [| x a l l1 Hxa _ IH]; intros l2 H2.
  - now inversion H2.
  - inversion H2 as [| x' b l' l2' Hxb Hrest]; subst.
    f_equal; [exact (HR x a b Hxa Hxb) | now apply IH].
Qed.

(** X3.  Ids are reissued after a reset: whatever the counter was, the
    next [N <= 2^53] ids after [resetCounter()] are, in order, the first
    [N] ids of a newly constructed generator ([w1] is the world
    [resetCounter()] leaves, whether it returns or its [log] throws). *)
Theorem resetCounter_reissues_ids (w : World) (this : ref) (o : ShortUID)
    (options : option ShortUIDOptions) (new : ref) (wn : World) (N fuel : nat) :
  initialised w -> instances w !! this = Some o ->
  constructor options w = Returns new wn ->
  Z.of_nat N <= 2 ^ 53 -> (9 <= fuel)%nat ->
  exists (w1 w2 wn' : World) (ids : list string),
    world_of (resetCounter this w) = Some w1 /\
    (log_error w (ResetCounter this) = None -> resetCounter this w = Returns tt w1) /\
    counterUUIDs fuel N this w1 = Returns ids w2 /\
    counterUUIDs fuel N new wn = Returns ids wn' /\
    length ids = N /\
    getCounter this w2 = Returns (Z.of_nat N) w2.
Proof.
  intros Hinit Ho Hnew HN Hfuel. pose proof (initialised_dictLength w Hinit) as Hn.
  destruct Hinit as (d & Hd & Hp & Hlen).
  destruct (resetCounter_world w this o Ho) as (w1 & Hreset & Hreturns & Hinst & Hframe).
  assert (Ho1 : instances w1 !! this = Some (mkShortUID 0 (debug o)))
    by (rewrite Hinst; apply lookup_insert_eq).
  assert (Hd1 : arrays w1 !! dict w1 = Some d) by (apply Hframe, Hd).
  assert (Hn1 : dictLength w1 = 62) by (destruct Hframe as (_ & -> & _); exact Hn).
  destruct (counterUUIDs_spec d this fuel Hfuel N w1 _ Hd1 Hn1 Ho1 ltac:(simpl; lia))
    as (ids & Hrun & Hids).
  destruct (constructor_inv options w new wn Hnew) as (-> & Hinstn & Hframen & _).
  set (new := fresh (dom (instances w))) in *.
  assert (Hon : instances wn !! new
                = Some (mkShortUID 0 (default false
                          (opt_debug (default {| opt_debug := None |} options)))))
    by (rewrite Hinstn; apply lookup_insert_eq).
  assert (Hdn : arrays wn !! dict wn = Some d) by (apply Hframen, Hd).
  assert (Hnn : dictLength wn = 62) by (destruct Hframen as (_ & -> & _); exact Hn).
  destruct (counterUUIDs_spec d new fuel Hfuel N wn _ Hdn Hnn Hon ltac:(simpl; lia))
    as (ids' & Hrun' & Hids').
  cbn [counter] in Hrun, Hids, Hrun', Hids'.
  rewrite (Forall2_functional (encodes d) _ ids' ids (encodes_functional d) Hids' Hids)
    in Hrun'.
  exists w1. do 2 eexists. exists ids.
  split; [exact Hreset |]. split; [exact Hreturns |]. split; [exact Hrun |].
  split; [exact Hrun' |]. split.
  - apply Forall2_length in Hids. rewrite length_fmap, length_seq in Hids. lia.
  - unfold getCounter, get_field, with_counter. simpl. rewrite lookup_insert_eq.
    simpl. f_equal. lia.
Qed.

Lemma resetCounter_reissues_ids_witness :
  exists (w1 w2 wn' : World) (ids : list string),
    world_of (resetCounter 1%positive limit_world) = Some w1 /\
    (log_error limit_world (ResetCounter 1%positive) = None ->
     resetCounter 1%positive limit_world = Returns tt w1) /\
    counterUUIDs 9 200 1%positive w1 = Returns ids w2 /\
    counterUUIDs 9 200 (fresh (dom (instances limit_world)))
      (default limit_world (world_of (constructor None limit_world)))
      = Returns ids wn' /\
    length ids = 200%nat /\
    getCounter 1%positive w2 = Returns (Z.of_nat 200) w2.
Proof.
  apply (resetCounter_reissues_ids limit_world 1%positive
           (mkShortUID (2 ^ 53) false) None
           (fresh (dom (instances limit_world)))
           (default limit_world (world_of (constructor None limit_world))) 200 9).
  - exact (reachable_initialised example_sort example_sort_permutes limit_world
             limit_world_reachable).
  - apply lookup_insert_eq.
  - exact (constructed None limit_world eq_refl).
  - simpl. lia.
  - lia.
Defined.

(** X4.  Generators are independent objects: two generators constructed
    one after the other are different references, each new when it is
    made, and [N] calls of [counterUUID()] on the first bring its counter
    to [N] (to [2^53], where it stays, once [N] is beyond that) while the
    counter of the second, and every other generator, stays where it was. *)
Theorem instances_are_independent (w : World) (o1 o2 : option ShortUIDOptions)
    (a b : ref) (w1 w2 : World) (N fuel : nat) :
  initialised w ->
  constructor o1 w = Returns a w1 -> constructor o2 w1 = Returns b w2 ->
  (9 <= fuel)%nat ->
  exists (w3 : World) (ids : list string),
    a <> b /\
    instances w !! a = None /\ instances w1 !! b = None /\
    counterUUIDs fuel N a w2 = Returns ids w3 /\
    getCounter a w3 = Returns (Z.min (Z.of_nat N) (2 ^ 53)) w3 /\
    getCounter b w3 = Returns 0 w3 /\
    (forall r : ref, r <> a -> instances w3 !! r = instances w2 !! r) /\
    (forall r : ref, r <> a -> r <> b -> instances w3 !! r = instances w !! r).
Proof.
  intros Hinit Hnew1 Hnew2 Hfuel.
  destruct (constructor_inv o1 w a w1 Hnew1) as (-> & Hinst1 & Hframe1 & _).
  destruct (constructor_inv o2 w1 b w2 Hnew2) as (-> & Hinst2 & Hframe2 & _).
  set (a := fresh (dom (instances w))) in *.
  set (b := fresh (dom (instances w1))) in *.
  assert (Ha : instances w !! a = None).
  { apply not_elem_of_dom. apply is_fresh. }
  assert (Hb : instances w1 !! b = None).
  { apply not_elem_of_dom. apply is_fresh. }
  assert (Hab : a <> b).
  { intros Heq. rewrite <- Heq, Hinst1, lookup_insert_eq in Hb. discriminate Hb. }
  pose proof (frame_initialised w w1 Hframe1 Hinit) as Hinit1.
  pose proof (frame_initialised w1 w2 Hframe2 Hinit1) as Hinit2.
  pose proof (initialised_dictLength w2 Hinit2) as Hn2.
  destruct Hinit2 as (d & Hd2 & Hp & _).
  assert (Hoa : instances w2 !! a
                = Some (mkShortUID 0 (default false
                          (opt_debug (default {| opt_debug := None |} o1))))).
  { rewrite Hinst2, lookup_insert_ne by (intros Heq; apply Hab; now rewrite Heq).
    rewrite Hinst1. apply lookup_insert_eq. }
  destruct (counterUUIDs_spec d a fuel Hfuel N w2 _ Hd2 Hn2 Hoa ltac:(simpl; lia))
    as (ids & Hrun & _).
  cbn [counter] in Hrun. rewrite Z.add_0_l in Hrun.
  eexists. exists ids.
  split; [exact Hab |].
  split; [exact Ha |]. split; [exact Hb |]. split; [exact Hrun |].
  unfold getCounter, get_field, with_counter. cbn [instances set_instances].
  split; [| split; [| split]].
  - rewrite lookup_insert_eq. reflexivity.
  - rewrite lookup_insert_ne by exact Hab. rewrite Hinst2, lookup_insert_eq.
    reflexivity.
  - intros r Hr. rewrite lookup_insert_ne by (intros Heq; apply Hr; now rewrite Heq).
    reflexivity.
  - intros r Hra Hrb.
    rewrite lookup_insert_ne by (intros Heq; apply Hra; now rewrite Heq).
    rewrite Hinst2, lookup_insert_ne by (intros Heq; apply Hrb; now rewrite Heq).
    rewrite Hinst1, lookup_insert_ne by (intros Heq; apply Hra; now rewrite Heq).
    reflexivity.
Qed.

Lemma instances_are_independent_witness :
  exists (w3 : World) (ids : list string),
    1%positive <> 2%positive /\
    instances example_world !! 1%positive = None /\
    instances example_started !! 2%positive = None /\
    counterUUIDs 9 3 1%positive
      (default example_started
         (world_of (constructor (Some {| opt_debug := Some true |}) example_started)))
      = Returns ids w3 /\
    getCounter 1%positive w3 = Returns (Z.min (Z.of_nat 3) (2 ^ 53)) w3 /\
    getCounter 2%positive w3 = Returns 0 w3 /\
    (forall r : ref, r <> 1%positive ->
       instances w3 !! r
       = instances
           (default example_started
              (world_of (constructor (Some {| opt_debug := Some true |})
                           example_started))) !! r) /\
    (forall r : ref, r <> 1%positive -> r <> 2%positive ->
                     instances w3 !! r = instances example_world !! r).
Proof.
  apply (instances_are_independent example_world None
           (Some {| opt_debug := Some true |}) 1%positive 2%positive
           example_started
           (default example_started
              (world_of (constructor (Some {| opt_debug := Some true |})
                           example_started))) 3 9).
  - exact (static_init_initialised example_sort example_sort_permutes
             ConsoleLog example_random).
  - exact example_started_constructed.
  - exact example_second_constructed.
  - lia.
Defined.

Lemma set_draws_twice (w : World) (n k : nat) :
  set_draws n (set_draws k w) = set_draws n w.
Proof. reflexivity. Qed.

(** The loop of [randomUUID], however it ends, has only advanced the
    random source. *)
Lemma randomUUID_loop_only_draws (fuel : nat) :
  forall x id i w w',
    world_of (randomUUID_loop fuel x id i w) = Some w' ->
    exists n : nat, w' = set_draws n w.
Proof.
  induction fuel as [| fuel IH]; intros x id i w w' H; cbn [randomUUID_loop] in H.
  - discriminate.
  - destruct (JS.lt _ _).
    + unfold bind at 1 in H. unfold Math_random at 1 in H.
      unfold bind at 1 in H. unfold static_dictLength at 1 in H.
      unfold bind at 1 in H. unfold dict_at, bind, static_dict, array_read, ret in H.
      simpl in H. destruct (arrays w !! dict w).
      * apply IH in H as (n & ->). exists n. apply set_draws_twice.
      * injection H as <-. eauto.
    + injection H as <-. exists (draws w). now destruct w.
Qed.

(** A string the loop returns extends the one it started from. *)
Lemma randomUUID_loop_extends (fuel : nat) :
  forall x id i w s w',
    randomUUID_loop fuel x id i w = Returns s w' -> exists t, s = id +:+ t.
Proof.
  induction fuel as [| fuel IH]; intros x id i w s w' H; cbn [randomUUID_loop] in H.
  - discriminate.
  - destruct (JS.lt _ _).
    + unfold bind at 1 in H. unfold Math_random at 1 in H.
      unfold bind at 1 in H. unfold static_dictLength at 1 in H.
      unfold bind at 1 in H.
      destruct (dict_at _ _) as [c w1 | |]; try discriminate.
      apply IH in H as (t & ->). exists (c +:+ t). apply append_assoc.
    + injection H as <- _. exists "". now rewrite append_nil_r.
Qed.

(** With the dictionary in place and draws from [0, 1), the loop draws
    once for every character it appends. *)
Lemma randomUUID_loop_counts (d : list string) (fuel : nat) :
  d ≡ₚ unshuffled_dict ->
  forall x id i w s w',
    arrays w !! dict w = Some d -> dictLength w = 62 -> random_ok w ->
    randomUUID_loop fuel x id i w = Returns s w' ->
    exists t : string,
      s = id +:+ t /\
      w' = set_draws (draws w + String.length t) w /\
      Forall (fun c => c ∈ d) (characters t).
Proof.
  intros Hp. induction fuel as [| fuel IH]; intros x id i w s w' Hd Hn Hr H;
    cbn [randomUUID_loop] in H.
  - discriminate.
  - destruct (JS.lt _ _).
    + unfold bind at 1 in H. unfold Math_random at 1 in H.
      unfold bind at 1 in H. unfold static_dictLength at 1 in H.
      set (w1 := set_draws (S (draws w)) w) in *.
      change (dictLength w1) with (dictLength w) in H. rewrite Hn in H.
      destruct (random_index (random w (draws w)) 62 (Hr _) ltac:(lia))
        as (j & Hj & Hidx).
      rewrite Hidx in H. unfold bind at 1 in H.
      rewrite (dict_at_returns w1 d Hd) in H.
      rewrite (array_get_index d) in H by lia.
      destruct (dict_lookup d Hp j Hj) as (c & Hc & Hin & Hlen).
      rewrite Hc in H. simpl JS.to_string in H.
      apply (IH _ _ _ w1 _ _ Hd Hn Hr) in H as (t & -> & -> & Hchars).
      exists (c +:+ t). split; [apply append_assoc |]. split.
      * rewrite length_append, Hlen. subst w1. destruct w. unfold set_draws.
        simpl. f_equal. lia.
      * rewrite characters_append, (characters_single c Hlen). now constructor.
    + injection H as <- <-. exists "". rewrite append_nil_r. split; [reflexivity |].
      split; [symmetry; apply set_draws_add_0 | constructor].
Qed.

(** X5.  [randomUUID] calls [Math.random()] once for every character it
    returns and changes nothing else in the world (no counter, no array, no
    console output); a call that is rejected has drawn nothing and changed
    nothing.  This holds for every argument. *)
Theorem randomUUID_draws_one_per_character (w : World) (this : ref)
    (a : argument) (fuel : nat) :
  initialised w -> random_ok w ->
  (forall s w', randomUUID fuel this a w = Returns s w' ->
      w' = set_draws (draws w + String.length s) w) /\
  (forall e w', randomUUID fuel this a w = Throws e w' ->
      e = InvalidLength /\ w' = w) /\
  (exists s w', randomUUID 7 this Omitted w = Returns s w' /\
      String.length s = 6%nat /\ draws w' = (draws w + 6)%nat).
Proof.
  intros Hinit Hr. pose proof (initialised_dictLength w Hinit) as Hn.
  destruct Hinit as (d & Hd & Hp & _).
  split; [| split].
  - intros s w' H. unfold randomUUID in H.
    destruct (_ || _); [discriminate H |].
    apply (randomUUID_loop_counts d fuel Hp _ _ _ w _ _ Hd Hn Hr) in H
      as (t & -> & -> & _).
    reflexivity.
  - intros err w' H. unfold randomUUID in H.
    destruct (_ || _).
    + injection H as <- <-. split; reflexivity.
    + apply randomUUID_loop_throws in H as [_ H]. congruence.
  - destruct (randomUUID_spec w d this 6 0 7 Hd Hp Hn Hr lt_six_one
                ltac:(change (ceiling 6 0) with 6; lia)
                ltac:(change (ceiling 6 0) with 6; lia)) as (s & Hs & Hlen & _).
    change (ceiling 6 0) with 6 in Hs, Hlen. exists s. eexists.
    split; [exact Hs |]. split; [lia | reflexivity].
Qed.

Lemma randomUUID_draws_one_per_character_witness :
  (forall s w', randomUUID 9 1%positive (Number (JS.Dyadic 5 (-1))) example_started
                  = Returns s w' ->
      w' = set_draws (draws example_started + String.length s) example_started) /\
  (forall e w', randomUUID 9 1%positive (Number (JS.Dyadic 5 (-1))) example_started
                  = Throws e w' ->
      e = InvalidLength /\ w' = example_started) /\
  (exists s w', randomUUID 7 1%positive Omitted example_started = Returns s w' /\
      String.length s = 6%nat /\ draws w' = (draws example_started + 6)%nat).
Proof.
  apply (randomUUID_draws_one_per_character example_started 1%positive
           (Number (JS.Dyadic 5 (-1))) 9).
  - exact example_started_initialised.
  - exact example_started_random_ok.
Defined.

(** X6.  [NaN] is neither [null] nor below one, so [randomUUID(NaN)]
    passes validation; the loop test fails at once and the call returns the
    empty string without drawing.  No other number gives an empty id. *)
Theorem randomUUID_is_empty_only_for_NaN (w : World) (this : ref) (fuel : nat) :
  initialised w -> (1 <= fuel)%nat ->
  randomUUID fuel this (Number JS.NaN) w = Returns "" w /\
  (forall (x : number) (s : string) (w' : World),
      randomUUID fuel this (Number x) w = Returns s w' ->
      s = "" -> x = JS.NaN).
Proof.
  intros Hinit Hfuel. destruct Hinit as (d & Hd & Hp & _).
  split.
  - destruct fuel as [| fuel]; [lia |]. reflexivity.
  - intros x s w' H Hs. destruct x as [| neg | m e]; [reflexivity | |]; exfalso.
    + unfold randomUUID, or_default, loosely_null, ToNumber in H.
      destruct neg; [discriminate H |].
      change (false || JS.lt (JS.Infinity false) (JS.of_int 1)) with false in H.
      cbv iota in H. destruct fuel as [| fuel]; [discriminate H |].
      cbn [randomUUID_loop] in H.
      change (JS.lt (JS.of_int 0) (JS.Infinity false)) with true in H. cbv iota in H.
      unfold bind at 1 in H. unfold Math_random at 1 in H.
      unfold bind at 1 in H. unfold static_dictLength at 1 in H.
      unfold bind at 1 in H.
      rewrite (dict_at_returns (set_draws (S (draws w)) w) d Hd) in H.
      apply randomUUID_loop_extends in H as (t & Ht). rewrite Hs in Ht.
      symmetry in Ht. revert Ht. apply append_nonempty. rewrite append_nil_l.
      apply to_string_nonempty, (dict_single d Hp).
    + unfold randomUUID, or_default, loosely_null, ToNumber in H.
      destruct (JS.lt (JS.Dyadic m e) (JS.of_int 1)) eqn:Hv; [discriminate H |].
      change (false || false) with false in H. cbv iota in H.
      pose proof (not_lt_one_ceiling m e Hv) as Hc.
      destruct fuel as [| fuel]; [discriminate H |].
      cbn [randomUUID_loop] in H. rewrite lt_int_dyadic in H.
      destruct (Z.ltb_spec 0 (ceiling m e)); [| lia].
      unfold bind at 1 in H. unfold Math_random at 1 in H.
      unfold bind at 1 in H. unfold static_dictLength at 1 in H.
      unfold bind at 1 in H.
      rewrite (dict_at_returns (set_draws (S (draws w)) w) d Hd) in H.
      apply randomUUID_loop_extends in H as (t & Ht). rewrite Hs in Ht.
      symmetry in Ht. revert Ht. apply append_nonempty. rewrite append_nil_l.
      apply to_string_nonempty, (dict_single d Hp).
Qed.

Lemma randomUUID_is_empty_only_for_NaN_witness :
  randomUUID 9 1%positive (Number JS.NaN) example_started = Returns "" example_started /\
  (forall (x : number) (s : string) (w' : World),
      randomUUID 9 1%positive (Number x) example_started = Returns s w' ->
      s = "" -> x = JS.NaN).
Proof.
  apply (randomUUID_is_empty_only_for_NaN example_started 1%positive 9).
  - exact example_started_initialised.
  - lia.
Defined.

(** The loop of [counterUUID], however it ends, has changed nothing. *)
Lemma counterUUID_loop_world (fuel : nat) :
  forall id v w w', world_of (counterUUID_loop fuel id v w) = Some w' -> w' = w.
Proof.
  induction fuel as [| fuel IH]; intros id v w w' H; cbn [counterUUID_loop] in H.
  - discriminate.
  - unfold bind at 1 in H. unfold static_dictLength at 1 in H.
    unfold bind at 1 in H. unfold dict_at, bind, static_dict, array_read, ret in H.
    simpl in H. destruct (arrays w !! dict w).
    + destruct (_ =? 0); [now injection H as <- | exact (IH _ _ _ _ H)].
    + now injection H as <-.
Qed.

(** [counterUUID()], however it ends, has at most stored a new counter in
    its own instance. *)
Lemma counterUUID_world (fuel : nat) (this : ref) (w w' : World) :
  world_of (counterUUID fuel this w) = Some w' ->
  w' = w \/
  exists o, instances w !! this = Some o /\
            w' = with_counter this o (JS.incr (counter o)) w.
Proof.
  unfold counterUUID, bind at 1, get_field at 1.
  destruct (instances w !! this) as [o |] eqn:Ho; [| intros [= <-]; now left].
  unfold bind at 1.
  destruct (counterUUID_loop fuel "" (counter o) w) as [id w1 | err w1 |] eqn:E.
  - assert (w1 = w) as -> by (apply (counterUUID_loop_world fuel "" (counter o));
                              now rewrite E).
    unfold bind, get_field, set_counter, ret. rewrite !Ho. simpl.
    intros [= <-]. right. exists o. split; reflexivity.
  - assert (w1 = w) as -> by (apply (counterUUID_loop_world fuel "" (counter o));
                              now rewrite E).
    intros [= <-]. now left.
  - discriminate.
Qed.

Lemma world_of_bind_ret {A B} (m : M A) (f : A -> B) (w : World) :
  world_of (bind m (fun a => ret (f a)) w) = world_of (m w).
Proof. unfold bind, ret. now destruct (m w). Qed.

Lemma randomUUID_only_draws (fuel : nat) (this : ref) (a : argument) (w w' : World) :
  world_of (randomUUID fuel this a w) = Some w' -> exists n : nat, w' = set_draws n w.
Proof.
  unfold randomUUID. destruct (_ || _).
  - intros [= <-]. exists (draws w). now destruct w.
  - apply randomUUID_loop_only_draws.
Qed.

(** X7.  What reaches the console: a call writes at most one line.
    Constructing a generator with [debug] on writes the creation line with
    the dictionary size 62, [resetCounter()] on such a generator writes the
    reset line, both tagged [[frugal-id]] and only if [console.log] is
    there; every other call, and every call on a generator with [debug]
    off, writes nothing. *)
Theorem console_output_of_a_call (w : World) (fuel : nat) (c : call) :
  initialised w ->
  match world_of (invoke fuel c w) with
  | Some w' =>
      printed w' = match line_of w c with
                   | Some line => line :: printed w
                   | None => printed w
                   end /\
      console w' = console w
  | None => True
  end.
Proof.
  intros Hinit. pose proof (initialised_dictLength w Hinit) as Hn.
  destruct Hinit as (d & Hd & _).
  destruct c as [options | this | this a | this | this | this | this];
    cbn [invoke]; rewrite ?world_of_bind_ret.
  - unfold line_of, requested_debug, constructor, bind, instance_new,
      static_dictLength, log, bind, get_field, console_log, ret.
    simpl. rewrite lookup_insert_eq, Hn. simpl.
    destruct w as [ar ins di dl co pr rn dr]. unfold set_instances, set_printed.
    simpl. destruct (default false _); simpl; destruct co; simpl;
      split; reflexivity.
  - destruct (world_of (counterUUID fuel this w)) as [w' |] eqn:E; [| exact I].
    assert (Hnone : line_of w (CounterUUID this) = None)
      by (unfold line_of; now destruct (console w)).
    rewrite Hnone.
    destruct (counterUUID_world fuel this w w' E) as [-> | (o & _ & ->)];
      split; reflexivity.
  - destruct (world_of (randomUUID fuel this a w)) as [w' |] eqn:E; [| exact I].
    assert (Hnone : line_of w (RandomUUID this a) = None)
      by (unfold line_of; now destruct (console w)).
    rewrite Hnone.
    destruct (randomUUID_only_draws fuel this a w w' E) as (n & ->).
    split; reflexivity.
  - unfold line_of, resetCounter, bind, set_counter, log, bind, get_field,
      console_log, ret.
    destruct (instances w !! this) as [o |] eqn:Ho; simpl.
    + rewrite lookup_insert_eq. simpl.
      destruct w as [ar ins di dl co pr rn dr]. unfold set_instances, set_printed.
      simpl in *. rewrite ?Ho.
      destruct (debug o); simpl; destruct co; simpl; split; reflexivity.
    + destruct (console w); split; reflexivity.
  - assert (Hnone : line_of w (GetCounter this) = None)
      by (unfold line_of; now destruct (console w)).
    rewrite Hnone. unfold getCounter, get_field.
    destruct (instances w !! this); simpl; split; reflexivity.
  - assert (Hnone : line_of w (GetDict this) = None)
      by (unfold line_of; now destruct (console w)).
    rewrite Hnone. unfold getDict, bind, static_dict, array_read, array_new, ret.
    rewrite Hd. simpl. rewrite lookup_insert_eq. simpl. split; reflexivity.
  - assert (Hnone : line_of w (GetDictLength this) = None)
      by (unfold line_of; now destruct (console w)).
    rewrite Hnone. simpl. split; reflexivity.
Qed.

Lemma console_output_of_a_call_witness :
  match world_of (invoke 9 (New (Some {| opt_debug := Some true |})) example_started) with
  | Some w' =>
      printed w' = match line_of example_started
                           (New (Some {| opt_debug := Some true |})) with
                   | Some line => line :: printed example_started
                   | None => printed example_started
                   end /\
      console w' = console example_started
  | None => True
  end.
Proof.
  apply (console_output_of_a_call example_started 9
           (New (Some {| opt_debug := Some true |}))).
  exact example_started_initialised.
Defined.

Lemma invoke_counters_in_range (fuel : nat) (c : call) (w w' : World) :
  world_of (invoke fuel c w) = Some w' -> counters_in_range w -> counters_in_range w'.
Proof.
  intros H Hw.
  assert (Hins : forall (r : ref) (o' : ShortUID),
            0 <= counter o' <= 2 ^ 53 ->
            counters_in_range (set_instances (<[r := o']> (instances w)) w)).
  { intros r o' Ho' r' o''. simpl. destruct (decide (r = r')) as [<- | Hne].
    - rewrite lookup_insert_eq. now intros [= <-].
    - rewrite lookup_insert_ne by exact Hne. apply Hw. }
  assert (Hsame : instances w' = instances w -> counters_in_range w').
  { intros E r o. rewrite E. apply Hw. }
  destruct c as [options | this | this a | this | this | this | this];
    cbn [invoke] in H; rewrite ?world_of_bind_ret in H.
  - destruct (constructor_world options w) as (w1 & Hnew & Hinst & _).
    rewrite Hnew in H. injection H as <-. intros r o. rewrite Hinst.
    destruct (decide (fresh (dom (instances w)) = r)) as [<- | Hne].
    + rewrite lookup_insert_eq. intros [= <-]. simpl. lia.
    + rewrite lookup_insert_ne by exact Hne. apply Hw.
  - destruct (counterUUID_world fuel this w w' H) as [-> | (o & Ho & ->)];
      [exact Hw |].
    apply Hins. simpl. pose proof (Hw this o Ho).
    rewrite incr_saturates by lia. lia.
  - apply Hsame. exact (randomUUID_instances fuel this a w w' H).
  - destruct (instances w !! this) as [o |] eqn:Ho.
    + destruct (resetCounter_world w this o Ho) as (w1 & Hreset & _ & Hinst & _).
      rewrite Hreset in H. injection H as <-. intros r o'. rewrite Hinst.
      destruct (decide (this = r)) as [<- | Hne].
      * rewrite lookup_insert_eq. intros [= <-]. simpl. lia.
      * rewrite lookup_insert_ne by exact Hne. apply Hw.
    + unfold resetCounter, bind, set_counter in H. rewrite Ho in H.
      injection H as <-. exact Hw.
  - unfold getCounter, get_field in H.
    destruct (instances w !! this); injection H as <-; exact Hw.
  - apply Hsame. unfold getDict, bind, static_dict, array_read, array_new, ret in H.
    destruct (arrays w !! dict w); simpl in H.
    + rewrite lookup_insert_eq in H. now injection H as <-.
    + now injection H as <-.
  - injection H as <-. exact Hw.
Qed.

Lemma reachable_counters_in_range (sort : list string -> list string) (w : World) :
  reachable sort w -> counters_in_range w.
Proof.
  induction 1 as [c rnd | w w' _ IH Hstep].
  - intros r o H. simpl in H. rewrite lookup_empty in H. discriminate H.
  - destruct Hstep as [fuel c w0 w0' H | r f w0 Hr | c w0].
    + exact (invoke_counters_in_range fuel c w0 w0' H IH).
    + exact IH.
    + exact IH.
Qed.

(** X8.  In every reachable world a generator's counter is an integer
    between 0 and [2^53], and [counterUUID()] returns after at most nine
    turns of its loop: the id has as many characters as the counter has
    base-62 digits, between one and nine, all of them from the dictionary. *)
Theorem counterUUID_returns_in_every_reachable_world
    (sort : list string -> list string) (w : World) (this : ref) (o : ShortUID)
    (fuel : nat) :
  (forall l : list string, sort l ≡ₚ l) -> reachable sort w ->
  instances w !! this = Some o -> (9 <= fuel)%nat ->
  0 <= counter o <= 2 ^ 53 /\
  exists (d : list string) (k : nat) (id : string) (w' : World),
    arrays w !! dict w = Some d /\
    counterUUID fuel this w = Returns id w' /\
    String.length id = k /\
    digit_count 62 (counter o) k /\
    (1 <= k <= 9)%nat /\
    Forall (fun c => c ∈ d) (characters id) /\
    reachable sort w'.
Proof.
  intros Hsort Hreach Ho Hfuel.
  pose proof (reachable_counters_in_range sort w Hreach this o Ho) as Hc.
  split; [exact Hc |].
  pose proof (reachable_initialised sort Hsort w Hreach) as Hinit.
  pose proof (initialised_dictLength w Hinit) as Hn.
  destruct Hinit as (d & Hd & Hp & _).
  pose proof (limit_below_fuel fuel Hfuel) as Hlim.
  destruct (counterUUID_loop_spec w d Hd Hn fuel "" (counter o) ltac:(lia) ltac:(lia)
              ltac:(lia)) as (k & _ & Hk & Hloop).
  assert (Hcall : counterUUID fuel this w
                  = Returns (positional d 62 (counter o) k)
                      (with_counter this o (JS.incr (counter o)) w)).
  { unfold counterUUID, bind, get_field, set_counter, ret.
    rewrite Ho, Hloop. rewrite !Ho. reflexivity. }
  exists d, k, (positional d 62 (counter o) k). eexists.
  split; [exact Hd |]. split; [exact Hcall |].
  split; [apply (positional_length d Hp); lia |]. split; [exact Hk |].
  split; [| split].
  - destruct Hk as (Hk1 & _ & Hge). split; [exact Hk1 |].
    destruct Hge as [-> | Hge]; [lia |].
    destruct (Nat.le_gt_cases k 9) as [Hle | Hgt]; [exact Hle | exfalso].
    assert (62 ^ 9 <= 62 ^ (Z.of_nat k - 1)) by (apply Z.pow_le_mono_r; lia).
    assert (2 ^ 53 < 62 ^ 9) by reflexivity. lia.
  - apply (positional_characters d Hp). lia.
  - apply reachable_step with w; [exact Hreach |].
    apply (step_call fuel (CounterUUID this)). cbn [invoke].
    rewrite world_of_bind_ret, Hcall. reflexivity.
Qed.

Lemma counterUUID_returns_in_every_reachable_world_witness :
  0 <= counter (mkShortUID (2 ^ 53) false) <= 2 ^ 53 /\
  exists (d : list string) (k : nat) (id : string) (w' : World),
    arrays limit_world !! dict limit_world = Some d /\
    counterUUID 9 1%positive limit_world = Returns id w' /\
    String.length id = k /\
    digit_count 62 (counter (mkShortUID (2 ^ 53) false)) k /\
    (1 <= k <= 9)%nat /\
    Forall (fun c => c ∈ d) (characters id) /\
    reachable example_sort w'.
Proof.
  apply (counterUUID_returns_in_every_reachable_world example_sort limit_world
           1%positive (mkShortUID (2 ^ 53) false) 9).
  - exact example_sort_permutes.
  - exact limit_world_reachable.
  - apply lookup_insert_eq.
  - lia.
Defined.

(** A counter below 62 is written with the one character at its index. *)
Lemma encodes_digit (d : list string) (v : Z) (id c : string) :
  0 <= v < 62 -> encodes d v id -> d !! Z.to_nat v = Some c -> id = c.
Proof.
  intros Hv (k & (Hk & _ & Hge) & ->) Hc.
  assert (k = 1%nat) as ->.
  { destruct Hge as [-> | Hge]; [reflexivity |].
    destruct (Nat.le_gt_cases k 1) as [Hle | Hgt]; [lia | exfalso].
    assert (62 ^ 1 <= 62 ^ (Z.of_nat k - 1)) by (apply Z.pow_le_mono_r; lia).
    lia. }
  rewrite positional_succ by lia.
  rewrite Z.mod_small by lia. rewrite Hc.
  change (positional d 62 (v / 62) 0) with "". apply append_nil_r.
Qed.

(** X9.  The first ids spell the dictionary: the first [N <= 62] ids of a
    newly constructed generator (one the constructor has just returned)
    are the first [N] entries of the array [getDict()] returns, in that
    order, one character each. *)
Theorem first_ids_are_the_dictionary (w : World) (options : option ShortUIDOptions)
    (new : ref) (wn : World) (N fuel : nat) :
  initialised w -> constructor options w = Returns new wn ->
  (N <= 62)%nat -> (9 <= fuel)%nat ->
  exists (w1 : World) (ids : list string) (r : ref) (w2 : World)
         (copy : list string),
    counterUUIDs fuel N new wn = Returns ids w1 /\
    getDict new w1 = Returns r w2 /\
    arrays w2 !! r = Some copy /\
    ids = take N copy.
Proof.
  intros Hinit Hnew HN Hfuel. pose proof (initialised_dictLength w Hinit) as Hn.
  destruct Hinit as (d & Hd & Hp & Hlen).
  destruct (constructor_inv options w new wn Hnew) as (-> & Hinstn & Hframen & _).
  set (new := fresh (dom (instances w))) in *.
  assert (Hon : instances wn !! new
                = Some (mkShortUID 0 (default false
                          (opt_debug (default {| opt_debug := None |} options)))))
    by (rewrite Hinstn; apply lookup_insert_eq).
  assert (Hdn : arrays wn !! dict wn = Some d) by (apply Hframen, Hd).
  assert (Hnn : dictLength wn = 62) by (destruct Hframen as (_ & -> & _); exact Hn).
  destruct (counterUUIDs_spec d new fuel Hfuel N wn _ Hdn Hnn Hon ltac:(simpl; lia))
    as (ids & Hrun & Hids).
  cbn [counter] in Hrun, Hids.
  eexists. exists ids. do 2 eexists. exists d.
  split; [exact Hrun |].
  split; [apply getDict_spec; exact Hdn |].
  split; [simpl; apply lookup_insert_eq |].
  pose proof (dict_length d Hp) as Hd62.
  pose proof (Forall2_length _ _ _ Hids) as Hl.
  rewrite length_fmap, length_seq in Hl.
  apply list_eq. intros i. destruct (decide (i < N)%nat) as [Hi | Hi].
  - rewrite lookup_take_lt by exact Hi.
    destruct (lookup_lt_is_Some_2 d i) as [c Hc]; [lia |].
    assert (Hsrc : ((fun i : nat => Z.min (0 + Z.of_nat i) (2 ^ 53)) <$> seq 0 N) !! i
                   = Some (Z.of_nat i)).
    { rewrite list_lookup_fmap, lookup_seq_lt by exact Hi. simpl. f_equal.
      assert (62 < 2 ^ 53) by reflexivity. lia. }
    destruct (Forall2_lookup_l _ _ _ _ _ Hids Hsrc) as (id & Hid & Henc).
    rewrite Hid, Hc. f_equal.
    apply (encodes_digit d (Z.of_nat i)); [lia | exact Henc |].
    now rewrite Nat2Z.id.
  - rewrite lookup_take_ge by lia. apply lookup_ge_None. lia.
Qed.

Lemma first_ids_are_the_dictionary_witness :
  exists (w1 : World) (ids : list string) (r : ref) (w2 : World)
         (copy : list string),
    counterUUIDs 9 62 1%positive example_started = Returns ids w1 /\
    getDict 1%positive w1 = Returns r w2 /\
    arrays w2 !! r = Some copy /\
    ids = take 62 copy.
Proof.
  apply (first_ids_are_the_dictionary example_world None 1%positive
           example_started 62 9).
  - exact (reachable_initialised example_sort example_sort_permutes example_world
             example_world_reachable).
  - exact example_started_constructed.
  - lia.
  - lia.
Defined.

(** X10.  [randomUUID] raises [InvalidLength] exactly when the length is
    [null] or a number below one; an explicit [undefined] is treated as an
    omitted argument, and gives six characters; and [randomUUID] raises
    nothing else. *)
Theorem randomUUID_raises_iff_null_or_below_one (w : World) (this : ref)
    (a : argument) (fuel : nat) :
  initialised w -> random_ok w -> (9 <= fuel)%nat ->
  ((exists w', randomUUID fuel this a w = Throws InvalidLength w') <->
   (a = Null \/ exists x, a = Number x /\ JS.lt x (JS.of_int 1) = true)) /\
  randomUUID fuel this Undefined w = randomUUID fuel this Omitted w /\
  (exists s w', randomUUID fuel this Undefined w = Returns s w' /\
                String.length s = 6%nat) /\
  (forall e w', randomUUID fuel this a w = Throws e w' -> e = InvalidLength).
Proof.
  intros Hinit Hr Hfuel. pose proof (initialised_dictLength w Hinit) as Hn.
  pose proof Hinit as (d & Hd & Hp & Hlen).
  assert (Hthrows : forall e w',
            randomUUID fuel this a w = Throws e w' ->
            e = InvalidLength /\
            (a = Null \/ exists x, a = Number x /\ JS.lt x (JS.of_int 1) = true)).
  { intros e w' H. unfold randomUUID in H.
    destruct a as [| | | x]; cbn [or_default loosely_null ToNumber orb] in H.
    - rewrite lt_six_one in H. apply randomUUID_loop_throws in H as [_ H]. congruence.
    - rewrite lt_six_one in H. apply randomUUID_loop_throws in H as [_ H]. congruence.
    - injection H as <- _. split; [reflexivity | now left].
    - destruct (JS.lt x (JS.of_int 1)) eqn:E.
      + injection H as <- _. split; [reflexivity | right; eauto].
      + apply randomUUID_loop_throws in H as [_ H]. congruence. }
  split; [| split; [| split]].
  - split.
    + intros (w' & H). apply (Hthrows _ _ H).
    + intros [-> | (x & -> & Hlt)]; exists w; unfold randomUUID;
        cbn [or_default loosely_null ToNumber orb]; [| rewrite Hlt]; reflexivity.
  - reflexivity.
  - destruct (randomUUID_spec w d this 6 0 fuel Hd Hp Hn Hr lt_six_one
                ltac:(change (ceiling 6 0) with 6; lia)
                ltac:(change (ceiling 6 0) with 6; lia)) as (s & Hs & Hlen6 & _).
    exists s. eexists. split; [exact Hs |]. change (ceiling 6 0) with 6 in Hlen6. lia.
  - intros e w' H. apply (Hthrows _ _ H).
Qed.

Lemma randomUUID_raises_iff_null_or_below_one_witness :
  ((exists w', randomUUID 9 1%positive (Number (JS.of_int 0)) example_started
                 = Throws InvalidLength w') <->
   (Number (JS.of_int 0) = Null \/
    exists x, Number (JS.of_int 0) = Number x /\ JS.lt x (JS.of_int 1) = true)) /\
  randomUUID 9 1%positive Undefined example_started
    = randomUUID 9 1%positive Omitted example_started /\
  (exists s w', randomUUID 9 1%positive Undefined example_started = Returns s w' /\
                String.length s = 6%nat) /\
  (forall e w', randomUUID 9 1%positive (Number (JS.of_int 0)) example_started
                  = Throws e w' -> e = InvalidLength).
Proof.
  apply (randomUUID_raises_iff_null_or_below_one example_started 1%positive
           (Number (JS.of_int 0)) 9).
  - exact example_started_initialised.
  - exact example_started_random_ok.
  - lia.
Defined.



(** X12.  Where [console?.log?.(...)] does not throw (the console or its
    [log] is undefined, or [log] prints), debug logging cannot be seen in
    return values: generators constructed with any two settings of
    [debug], under any two such consoles, are the same reference and
    answer every run of calls alike; and [log] on a live generator
    returns, leaving the world untouched when the console or its [log] is
    undefined. *)
Theorem debug_is_unobservable_where_log_returns (w : World) (c1 c2 : Console)
    (o1 o2 : option ShortUIDOptions) (fuel : nat) (cs : list call) :
  console_error c1 = None -> console_error c2 = None ->
  exists (this : ref) (w_1 w_2 : World),
    constructor o1 (set_console c1 w) = Returns this w_1 /\
    constructor o2 (set_console c2 w) = Returns this w_2 /\
    run fuel cs w_1 = run fuel cs w_2 /\
    (forall (r : ref) (message : string) (w' : World),
        is_Some (instances w' !! r) -> console_error (console w') = None ->
        exists w'', log r message w' = Returns tt w'') /\
    (forall (r : ref) (message : string) (w' : World),
        is_Some (instances w' !! r) ->
        console w' = NoConsole \/ console w' = ConsoleWithoutLog ->
        log r message w' = Returns tt w').
Proof.
  intros Hc1 Hc2.
  assert (Hl1 : log_error (set_console c1 w) (New o1) = None).
  { unfold log_error. destruct (requested_debug o1); [exact Hc1 | reflexivity]. }
  assert (Hl2 : log_error (set_console c2 w) (New o2) = None).
  { unfold log_error. destruct (requested_debug o2); [exact Hc2 | reflexivity]. }
  destruct (constructor_spec o1 (set_console c1 w) Hl1) as (w_1 & H1 & _).
  destruct (constructor_spec o2 (set_console c2 w) Hl2) as (w_2 & H2 & _).
  exists (fresh (dom (instances w))), w_1, w_2.
  split; [exact H1 |]. split; [exact H2 |].
  assert (Hsim : similar (set_console c1 w) (set_console c2 w)).
  { unfold similar. simpl. repeat split; [intros r a b Ha Hb; congruence |].
    left. split; [exact Hc1 | exact Hc2]. }
  pose proof (constructor_agree o1 o2 _ _ Hsim Hc1 Hc2) as Hrel.
  rewrite H1, H2 in Hrel. destruct Hrel as [_ Hsim'].
  split; [exact (run_similar fuel cs w_1 w_2 Hsim') |]. split.
  - intros r message w' [o Ho] Hq. unfold log, bind, get_field, console_log, ret.
    rewrite Ho. destruct (debug o); [| eauto].
    destruct (console w'); simpl in Hq; try discriminate Hq; eauto.
  - intros r message w' [o Ho] Hc. unfold log, bind, get_field, console_log, ret.
    rewrite Ho. destruct (debug o); [| reflexivity].
    destruct Hc as [-> | ->]; reflexivity.
Qed.

Lemma debug_is_unobservable_where_log_returns_witness :
  exists (this : ref) (w_1 w_2 : World),
    constructor (Some {| opt_debug := Some true |}) (set_console ConsoleLog example_world)
      = Returns this w_1 /\
    constructor None (set_console NoConsole example_world) = Returns this w_2 /\
    run 9 [CounterUUID 1%positive; RandomUUID 1%positive Omitted;
           ResetCounter 1%positive; GetCounter 1%positive] w_1
    = run 9 [CounterUUID 1%positive; RandomUUID 1%positive Omitted;
             ResetCounter 1%positive; GetCounter 1%positive] w_2 /\
    (forall (r : ref) (message : string) (w' : World),
        is_Some (instances w' !! r) -> console_error (console w') = None ->
        exists w'', log r message w' = Returns tt w'') /\
    (forall (r : ref) (message : string) (w' : World),
        is_Some (instances w' !! r) ->
        console w' = NoConsole \/ console w' = ConsoleWithoutLog ->
        log r message w' = Returns tt w').
Proof.
  apply (debug_is_unobservable_where_log_returns example_world ConsoleLog NoConsole
           (Some {| opt_debug := Some true |}) None 9
           [CounterUUID 1%positive; RandomUUID 1%positive Omitted;
            ResetCounter 1%positive; GetCounter 1%positive]).
  - reflexivity.
  - reflexivity.
Defined.
